(** * Hyperliquid trading agent: a shallow embedding of the sources

    The development follows the trade capability of [trade.ts]
    ([createTradeCapability] and its [run] method), then the test
    capability, the capabilities index and the server script:

    - [Num]: the JavaScript Number type (IEEE 754 binary64) with the
      operations the price computation uses ([*], [/], [Math.round],
      [toFixed], [toString], [parseFloat], [parseInt]);
    - [Quantizer]: the limit-price computation of the order step, and
      the reference it is compared with;
    - [Regex]: the quote-stripping [replace(/^"|"$/g, '')];
    - [Js], [Json]: errors, JSON payloads and the result objects of
      [JSON.stringify];
    - [Trade]: the [run] method itself, as a program over the external
      collaborators (secret store, exchange clients), with JavaScript's
      completion kinds (normal, [return], [throw]);
    - [NumSpec], [TradeSpec], [Scenarios]: the vocabulary of the
      statements and the concrete worlds the examples run in;
    - [Text], [Console]: [substring] and the console lines that show a
      key;
    - [TestCapability], [Capabilities], [Server]: [test.ts],
      [index.ts] and [agent-server.ts];
    - [RunSpec], [PriceSpec], [ServerSpec], [BudgetSpec], [KeySpec],
      [Examples]: more vocabulary and worlds;
    - [NumFacts] to [TradeFacts]: the properties of the pipeline;
    - [RunFacts] to [ServerFacts]: the calls of an invocation, the
      limit price and the leverage, the console lines, the test
      capability and the server. *)

From stdpp Require Import base strings list gmap.
From Stdlib Require Import ZArith QArith Qround Qpower Qabs Lqa Lia Ascii.

(** ** JavaScript numbers *)

Module Num.

Local Open Scope Q_scope.

(** A Number is NaN, an infinity, or a finite binary64 value
    [(-1)^neg * m * 2^e] kept in canonical form: [0 <= m < 2^53],
    [-1074 <= e <= 971], and [2^52 <= m] unless [e = -1074]. *)
Inductive number :=
| NaN
| Infinity (neg : bool)
| Finite (neg : bool) (m : Z) (e : Z).

Definition emin : Z := -1074.
Definition emax : Z := 971.

Definition pow2 (e : Z) : Q := 2 ^ e.

(** The magnitude of a finite number, as an exact rational. *)
Definition mag (x : number) : Q :=
  match x with
  | Finite _ m e => inject_Z m * pow2 e
  | _ => 0
  end.

Definition is_neg (x : number) : bool :=
  match x with
  | NaN => false
  | Infinity s => s
  | Finite s _ _ => s
  end.

(** [ilog2 x] is [floor (log2 x)] for [0 < x]. *)
Definition ilog2 (x : Q) : Z :=
  let l := (Z.log2 (Qnum x) - Z.log2 (Zpos (Qden x)))%Z in
  if Qle_bool (pow2 l) x then l else (l - 1)%Z.

(** Nearest integer, ties to even (the IEEE default rounding). *)
Definition round_half_even (y : Q) : Z :=
  let f := Qfloor y in
  match Qcompare (y - inject_Z f) (1 # 2) with
  | Lt => f
  | Gt => (f + 1)%Z
  | Eq => if Z.even f then f else (f + 1)%Z
  end.

(** The exponent of the unit in the last place of the binade of [x]. *)
Definition ulp_exp (x : Q) : Z := Z.max (ilog2 x - 52) emin.

(** [round_mag neg x]: the Number nearest to [(-1)^neg * x] for a
    rational [0 <= x]. *)
Definition round_mag (neg : bool) (x : Q) : number :=
  if Qle_bool x 0 then Finite neg 0 emin
  else
    let e := ulp_exp x in
    let m := round_half_even (x / pow2 e) in
    let '(m, e) := if (m =? 2 ^ 53)%Z then (2 ^ 52, e + 1)%Z else (m, e) in
    if (emax <? e)%Z then Infinity neg else Finite neg m e.

Definition is_zero (x : number) : bool :=
  match x with Finite _ 0 _ => true | _ => false end.

(** [x * y] on Numbers. *)
Definition mul (x y : number) : number :=
  match x, y with
  | NaN, _ | _, NaN => NaN
  | Infinity s, Infinity t => Infinity (xorb s t)
  | Infinity s, Finite t _ _ =>
      if is_zero y then NaN else Infinity (xorb s t)
  | Finite s _ _, Infinity t =>
      if is_zero x then NaN else Infinity (xorb s t)
  | Finite s _ _, Finite t _ _ => round_mag (xorb s t) (mag x * mag y)
  end.

(** [x / y] on Numbers. *)
Definition div (x y : number) : number :=
  match x, y with
  | NaN, _ | _, NaN => NaN
  | Infinity _, Infinity _ => NaN
  | Infinity s, Finite t _ _ => Infinity (xorb s t)
  | Finite s _ _, Infinity t => Finite (xorb s t) 0 emin
  | Finite s _ _, Finite t _ _ =>
      if is_zero y then
        if is_zero x then NaN else Infinity (xorb s t)
      else round_mag (xorb s t) (mag x / mag y)
  end.

(** [Math.round]: the nearest integral Number, ties towards +infinity;
    results in (-0.5, 0) and -0 itself give -0. *)
Definition Math_round (x : number) : number :=
  match x with
  | Finite s m e =>
      if (0 <=? e)%Z then x
      else
        let v := if s then - mag x else mag x in
        let n := Qfloor (v + (1 # 2)) in
        if (n =? 0)%Z then Finite s 0 emin
        else round_mag (n <? 0)%Z (inject_Z (Z.abs n))
  | _ => x
  end.

(** Integers and decimal literals as Numbers. *)
Definition of_Z (n : Z) : number :=
  round_mag (n <? 0)%Z (inject_Z (Z.abs n)).

Definition of_Q (q : Q) : number :=
  round_mag (Qnum q <? 0)%Z (Qabs q).

(** *** Decimal digits *)

Local Open Scope string_scope.

Definition digit_char (d : Z) : ascii := ascii_of_nat (48 + Z.to_nat d).

Definition char_digit (c : ascii) : option Z :=
  let n := Z.of_nat (nat_of_ascii c) in
  if ((48 <=? n) && (n <=? 57))%Z then Some (n - 48)%Z else None.

(** The value of a digit sequence, most significant digit first. *)
Definition digits_value (ds : list Z) : Z :=
  fold_left (fun acc d => (10 * acc + d)%Z) ds 0%Z.

Fixpoint digits_loop (fuel : nat) (n : Z) (acc : list Z) : list Z :=
  match fuel with
  | O => acc
  | S fuel =>
      if (n <? 10)%Z then n :: acc
      else digits_loop fuel (n / 10)%Z ((n mod 10)%Z :: acc)
  end.

(** The decimal digits of [0 <= n], without leading zeroes ([[0]] for 0). *)
Definition digits_of (n : Z) : list Z :=
  digits_loop (S (Z.to_nat (Z.log2 n))) n [].

Fixpoint string_of_digits (ds : list Z) : string :=
  match ds with
  | [] => ""
  | d :: ds => String (digit_char d) (string_of_digits ds)
  end.

(** *** [Number::toString] and [Number.prototype.toFixed] *)

Definition decimal_length (v : Z) : Z := Z.of_nat (length (digits_of v)).

(** The [n] with [10^(n-1) <= x < 10^n], for [0 < x]. *)
Definition decimal_exponent (x : Q) : Z :=
  if Qle_bool 1 x then decimal_length (Qfloor x)
  else
    let n := (1 - decimal_length (Qfloor (/ x)))%Z in
    if Qle_bool (10 ^ n) x then (n + 1)%Z
    else if Qle_bool (10 ^ (n - 1)) x then n
    else (n - 1)%Z.

Fixpoint strip_trailing_zeroes (ds : list Z) : list Z :=
  match ds with
  | [] => []
  | d :: ds =>
      match strip_trailing_zeroes ds with
      | [] => if (d =? 0)%Z then [] else [d]
      | ds' => d :: ds'
      end
  end.

Definition same_number (x y : number) : bool :=
  match x, y with
  | Finite s m e, Finite s' m' e' =>
      Bool.eqb s s' && (m =? m')%Z && (e =? e')%Z
  | Infinity s, Infinity s' => Bool.eqb s s'
  | _, _ => false
  end.

(** The integers [s] of [k] digits for which [s * 10^(n-k)] reads back
    as the Number of magnitude [x]: of the two around [x / 10^(n-k)],
    the one closest to [x], the even one on a tie. *)
Definition shortest_at (x : Q) (n k : Z) : option Z :=
  let p := 10 ^ (n - k) in
  let lo := Qfloor (x / p) in
  let hi := (lo + 1)%Z in
  let ok s := same_number (round_mag false (inject_Z s * p))
                          (round_mag false x) in
  let dlo := x - inject_Z lo * p in
  let dhi := inject_Z hi * p - x in
  match ok lo, ok hi with
  | true, true =>
      match Qcompare dlo dhi with
      | Lt => Some lo
      | Gt => Some hi
      | Eq => Some (if Z.even lo then lo else hi)
      end
  | true, false => Some lo
  | false, true => Some hi
  | false, false => None
  end.

Fixpoint shortest_loop (fuel : nat) (x : Q) (n k : Z) : Z * Z :=
  match fuel with
  | O => (Qfloor (x / 10 ^ (n - k)), k)
  | S fuel =>
      match shortest_at x n k with
      | Some s => (s, k)
      | None => shortest_loop fuel x n (k + 1)
      end
  end.

(** The shortest digits [ds] and the exponent [n] with
    [0.ds * 10^n] reading back as the Number of magnitude [x]. *)
Definition shortest_digits (x : Q) : list Z * Z :=
  let n := decimal_exponent x in
  let '(s, k) := shortest_loop 17 x n 1 in
  let ds := digits_of s in
  (strip_trailing_zeroes ds, (n - k + Z.of_nat (length ds))%Z).

(** [Number::toString(x)] in radix 10. *)
Definition to_string (x : number) : string :=
  match x with
  | NaN => "NaN"
  | Infinity false => "Infinity"
  | Infinity true => "-Infinity"
  | Finite s m e =>
      if (m =? 0)%Z then "0"
      else
        let sign := if s then "-" else "" in
        let '(ds, n) := shortest_digits (mag x) in
        let k := Z.of_nat (length ds) in
        let body :=
          if ((k <=? n) && (n <=? 21))%Z then
            string_of_digits (ds ++ replicate (Z.to_nat (n - k)) 0%Z)%list
          else if ((0 <? n) && (n <=? 21))%Z then
            string_of_digits (take (Z.to_nat n) ds) ++ "."
            ++ string_of_digits (drop (Z.to_nat n) ds)
          else if ((-6 <? n) && (n <=? 0))%Z then
            "0." ++ string_of_digits
                      (replicate (Z.to_nat (- n)) 0%Z ++ ds)%list
          else
            let e := (n - 1)%Z in
            let exp := (if (e <? 0)%Z then "e-" else "e+")
                       ++ string_of_digits (digits_of (Z.abs e)) in
            match ds with
            | [] => "0"
            | [d] => string_of_digits [d] ++ exp
            | d :: rest =>
                string_of_digits [d] ++ "." ++ string_of_digits rest ++ exp
            end in
        sign ++ body
  end.

(** The integer [n] for which [n / 10^f - x] is as close to zero as
    possible, the larger one when there are two. *)
Definition fixed_digits (x : Q) (f : nat) : Z :=
  Qfloor (x * inject_Z (10 ^ Z.of_nat f) + (1 # 2)).

(** The digits of [n] with [f] of them after the point, zero-padded on
    the left to at least [f + 1] digits. *)
Definition fixed_string (n : Z) (f : nat) : string :=
  let m := digits_of n in
  let m := (replicate (S f - length m) 0%Z ++ m)%list in
  let k := length m in
  match f with
  | O => string_of_digits m
  | _ => string_of_digits (take (k - f) m) ++ "."
         ++ string_of_digits (drop (k - f) m)
  end.

(** [x.toFixed(f)] for [0 <= f <= 100]. *)
Definition toFixed (x : number) (f : nat) : string :=
  match x with
  | NaN => "NaN"
  | Infinity false => "Infinity"
  | Infinity true => "-Infinity"
  | Finite s m e =>
      let sign := if s && negb (m =? 0)%Z then "-" else "" in
      if Qle_bool (inject_Z (10 ^ 21)) (mag x)
      then sign ++ to_string (Finite false m e)
      else sign ++ fixed_string (fixed_digits (mag x) f) f
  end.

(** *** [parseFloat] *)

(** A parsed [StrDecimalLiteral]: an infinity, or the decimal
    [(-1)^neg * coeff * 10^exp10]. *)
Inductive literal :=
| LitInfinity (neg : bool)
| LitDecimal (neg : bool) (coeff : Z) (exp10 : Z).

(** The longest run of decimal digits at the head of [s], and the rest. *)
Fixpoint read_digits (s : string) : list Z * string :=
  match s with
  | String c rest =>
      match char_digit c with
      | Some d => let '(ds, r) := read_digits rest in (d :: ds, r)
      | None => ([], s)
      end
  | EmptyString => ([], s)
  end.

(** [TrimString(_, start)]: white space and line terminators, in the
    UTF-8 encoding of the string. *)
Fixpoint trim_start (s : string) : string :=
  match s with
  | String c rest =>
      let n := nat_of_ascii c in
      if ((9 <=? n) && (n <=? 13))%nat || (n =? 32)%nat then trim_start rest
      else
        match s with
        | String "194" (String "160" r) => trim_start r
        | String "225" (String "154" (String "128" r)) => trim_start r
        | String "226" (String "128" (String c3 r)) =>
            let k := nat_of_ascii c3 in
            if (((128 <=? k) && (k <=? 138)) || (k =? 168) || (k =? 169)
                || (k =? 175))%nat
            then trim_start r else s
        | String "226" (String "129" (String "159" r)) => trim_start r
        | String "227" (String "128" (String "128" r)) => trim_start r
        | String "239" (String "187" (String "191" r)) => trim_start r
        | _ => s
        end
  | EmptyString => s
  end.

Definition read_sign (s : string) : bool * string :=
  match s with
  | String "-" r => (true, r)
  | String "+" r => (false, r)
  | _ => (false, s)
  end.

(** An [ExponentPart] at the head of [s], when there is one. *)
Definition read_exponent (s : string) : Z :=
  match s with
  | String c r =>
      if (Ascii.eqb c "e" || Ascii.eqb c "E")%bool then
        let '(neg, r) := read_sign r in
        match read_digits r with
        | ([], _) => 0%Z
        | (ds, _) => if neg then (- digits_value ds)%Z else digits_value ds
        end
      else 0%Z
  | EmptyString => 0%Z
  end.

(** The longest prefix of [r] that is a [StrUnsignedDecimalLiteral],
    parsed, for the sign [neg] read before it. *)
Definition parse_unsigned (neg : bool) (r : string) : option literal :=
  if String.prefix "Infinity" r then Some (LitInfinity neg)
  else
    let '(int, r) := read_digits r in
    let '(frac, r) :=
      match r with
      | String "." r' => read_digits r'
      | _ => ([], r)
      end in
    match (int ++ frac)%list with
    | [] => None
    | ds =>
        Some (LitDecimal neg (digits_value ds)
                (read_exponent r - Z.of_nat (length frac)))
    end.

(** The longest prefix of the trimmed string that is a
    [StrDecimalLiteral], parsed. *)
Definition parse_literal (s : string) : option literal :=
  let '(neg, r) := read_sign (trim_start s) in
  parse_unsigned neg r.

Definition literal_number (l : literal) : number :=
  match l with
  | LitInfinity neg => Infinity neg
  | LitDecimal neg c e => round_mag neg (inject_Z c * 10 ^ e)
  end.

Definition parseFloat (s : string) : number :=
  match parse_literal s with
  | Some l => literal_number l
  | None => NaN
  end.

(** *** [parseInt] (no radix argument) *)

Definition radix_digit (radix : Z) (c : ascii) : option Z :=
  let n := Z.of_nat (nat_of_ascii c) in
  let d := if ((48 <=? n) && (n <=? 57))%Z then Some (n - 48)%Z
           else if ((97 <=? n) && (n <=? 122))%Z then Some (n - 87)%Z
           else if ((65 <=? n) && (n <=? 90))%Z then Some (n - 55)%Z
           else None in
  match d with
  | Some d => if (d <? radix)%Z then Some d else None
  | None => None
  end.

Fixpoint read_radix_digits (radix : Z) (s : string) : list Z :=
  match s with
  | String c rest =>
      match radix_digit radix c with
      | Some d => d :: read_radix_digits radix rest
      | None => []
      end
  | EmptyString => []
  end.

Definition parseInt (s : string) : number :=
  let '(neg, r) := read_sign (trim_start s) in
  let '(radix, r) :=
    match r with
    | String "0" (String c r') =>
        if (Ascii.eqb c "x" || Ascii.eqb c "X")%bool then (16, r')%Z
        else (10, r)%Z
    | _ => (10, r)%Z
    end in
  match read_radix_digits radix r with
  | [] => NaN
  | ds =>
      round_mag neg
        (inject_Z (fold_left (fun acc d => (radix * acc + d)%Z) ds 0%Z))
  end.

(** The exact rational a decimal string denotes (no rounding). *)
Definition decimal_value (s : string) : option Q :=
  match parse_literal s with
  | Some (LitDecimal neg c e) =>
      Some (if neg then - (inject_Z c * 10 ^ e) else inject_Z c * 10 ^ e)
  | _ => None
  end.

End Num.

(** ** The limit price (step 6 of [run]) *)

Module Quantizer.

Import Num.
Local Open Scope Z_scope.

Inductive Side := Buy | Sell.

(** The numeric literals of the source, as the binary64 values the
    engine reads them as. *)
Definition lit_1 : number := Eval vm_compute in of_Q 1.
Definition lit_1_002 : number := Eval vm_compute in of_Q (1002 # 1000).
Definition lit_0_998 : number := Eval vm_compute in of_Q (998 # 1000).
Definition lit_0_1 : number := Eval vm_compute in of_Q (1 # 10).
Definition lit_0_01 : number := Eval vm_compute in of_Q (1 # 100).
Definition lit_0_001 : number := Eval vm_compute in of_Q (1 # 1000).

(** [args.side === 'buy' ? 1.002 : 0.998] *)
Definition priceAdjustment (side : Side) : number :=
  match side with Buy => lit_1_002 | Sell => lit_0_998 end.

(** [szDecimals >= 5 ? 1 : szDecimals >= 4 ? 0.1 : szDecimals >= 3 ? 0.01 : 0.001] *)
Definition tickSize (szDecimals : Z) : number :=
  if 5 <=? szDecimals then lit_1
  else if 4 <=? szDecimals then lit_0_1
  else if 3 <=? szDecimals then lit_0_01
  else lit_0_001.

(** [szDecimals >= 5 ? 0 : szDecimals >= 4 ? 1 : szDecimals >= 3 ? 2 : 3],
    the argument of [toFixed]. *)
Definition fractionDigits (szDecimals : Z) : nat :=
  if 5 <=? szDecimals then 0%nat
  else if 4 <=? szDecimals then 1%nat
  else if 3 <=? szDecimals then 2%nat
  else 3%nat.

(** [(Math.round(rawPrice / tickSize) * tickSize).toFixed(...)]; in the
    source [rawPrice] is the price after the slippage adjustment. *)
Definition roundToTick (rawPrice : number) (szDecimals : Z) : string :=
  toFixed
    (mul (Math_round (div rawPrice (tickSize szDecimals)))
         (tickSize szDecimals))
    (fractionDigits szDecimals).

(** Lines 257-266: the limit price for a market price of [price]. *)
Definition limitPrice (price : number) (side : Side) (szDecimals : Z)
  : string :=
  let rawPrice := mul price (priceAdjustment side) in
  roundToTick rawPrice szDecimals.

(** The same from the price string of the feed:
    [parseFloat(coinPrice) * priceAdjustment]. *)
Definition limitPriceOf (coinPrice : string) (side : Side) (szDecimals : Z)
  : string :=
  limitPrice (parseFloat coinPrice) side szDecimals.

(** *** The quantizer as the specification words it

    A slippage bias per side, an ordered table from [sizeDecimals] to
    tick size and price decimals, rounding to the nearest multiple of
    the tick, and formatting; the result is a [TickPlan]. *)









End Quantizer.

(** ** The quote-stripping replace *)

Module Regex.

Local Open Scope string_scope.

Definition quote : ascii := "034".

Definition is_empty (s : string) : bool :=
  match s with EmptyString => true | _ => false end.

(** [s.replace(/^"|"$/g, '')]: the global replace scans the subject
    from left to right; at each position the pattern matches a quote
    that is the first character ([^"]) or the last one (["$]), and the
    matched character is dropped. *)
Fixpoint replace_scan (at_start : bool) (s : string) : string :=
  match s with
  | EmptyString => EmptyString
  | String c rest =>
      if Ascii.eqb c quote && (at_start || is_empty rest)
      then replace_scan false rest
      else String c (replace_scan false rest)
  end.

Definition strip_quotes (s : string) : string := replace_scan true s.

(** The two halves of the pattern, one at a time. *)
Definition starts_with_quote (s : string) : bool :=
  match s with
  | String c _ => Ascii.eqb c quote
  | EmptyString => false
  end.

Fixpoint ends_with_quote (s : string) : bool :=
  match s with
  | EmptyString => false
  | String c rest =>
      if is_empty rest then Ascii.eqb c quote else ends_with_quote rest
  end.

Definition drop_first (s : string) : string :=
  match s with
  | String _ rest => rest
  | EmptyString => s
  end.

Fixpoint drop_last (s : string) : string :=
  match s with
  | EmptyString => EmptyString
  | String c rest =>
      if is_empty rest then EmptyString else String c (drop_last rest)
  end.

Definition drop_leading_quote (s : string) : string :=
  if starts_with_quote s then drop_first s else s.

Definition drop_trailing_quote (s : string) : string :=
  if ends_with_quote s then drop_last s else s.

(** "One layer of enclosing quote characters, if present": a leading
    quote together with a trailing one, or nothing. *)
Definition strip_enclosing (s : string) : string :=
  if starts_with_quote s && ends_with_quote (drop_first s)
  then drop_last (drop_first s)
  else s.

End Regex.

(** ** Exceptions *)

Module Js.

(** What a [catch] clause of the source reads of the value thrown. *)
Record Error := mkError {
  message : string;
  stack : option string
}.

(** The result of an awaited call: a value, or an exception. *)
Inductive outcome (A : Type) :=
| Ok (a : A)
| Raise (e : Error).
Arguments Ok {A} a.
Arguments Raise {A} e.

(** A [TypeError] of the engine (V8's wording). *)
Definition TypeError (msg : string) : Error :=
  mkError msg (Some ("TypeError: " ++ msg)%string).

End Js.

(** ** JSON payloads *)

Module Json.

Import Js.
Local Open Scope string_scope.

#[local] Unset Elimination Schemes.
Inductive value :=
| Null
| Bool (b : bool)
| Number (n : Num.number)
| Str (s : string)
| Array (items : list value)
| Object (fields : list (string * value)).
#[local] Set Elimination Schemes.

(** A JavaScript value that may be [undefined]. *)
Abbreviation maybe := (option value).

(** [ToBoolean]. *)
Definition truthy (v : maybe) : bool :=
  match v with
  | None | Some Null => false
  | Some (Bool b) => b
  | Some (Number n) =>
      match n with
      | Num.NaN => false
      | Num.Finite _ 0 _ => false
      | _ => true
      end
  | Some (Str s) => negb (Regex.is_empty s)
  | Some (Array _) | Some (Object _) => true
  end.

Definition lookup_field (k : string) (fields : list (string * value))
  : maybe :=
  snd <$> List.find (fun kv => String.eqb (fst kv) k) fields.

Definition index_name (i : nat) : string :=
  Num.string_of_digits (Num.digits_of (Z.of_nat i)).

(** The index an array-index property name denotes. *)
Definition name_index (k : string) (len : nat) : option nat :=
  List.find (fun i => String.eqb (index_name i) k) (seq 0 len).

(** [v.k] and [v[k]]: a [TypeError] on [undefined] and [null], the own
    property otherwise (none of the names read by the source is
    inherited from a prototype). *)
Definition get (v : maybe) (k : string) : outcome maybe :=
  match v with
  | None =>
      Raise (TypeError ("Cannot read properties of undefined (reading '"
                          ++ k ++ "')"))
  | Some Null =>
      Raise (TypeError ("Cannot read properties of null (reading '"
                          ++ k ++ "')"))
  | Some (Object fields) => Ok (lookup_field k fields)
  | Some (Array items) =>
      if String.eqb k "length"
      then Ok (Some (Number (Num.of_Z (Z.of_nat (length items)))))
      else Ok (i ← name_index k (length items); items !! i)
  | Some (Str s) =>
      if String.eqb k "length"
      then Ok (Some (Number (Num.of_Z (Z.of_nat (String.length s)))))
      else Ok (i ← name_index k (String.length s);
               Some (Str (String.substring i 1 s)))
  | Some (Bool _) | Some (Number _) => Ok None
  end.

(** [v?.k]: [undefined] on [undefined] and [null]. *)
Definition get_optional (v : maybe) (k : string) : outcome maybe :=
  match v with
  | None | Some Null => Ok None
  | _ => get v k
  end.

(** [ToString] of a primitive, for the engine's messages. *)
Definition primitive_text (v : value) : string :=
  match v with
  | Null => "null"
  | Bool true => "true"
  | Bool false => "false"
  | Number n => Num.to_string n
  | Str s => s
  | _ => "[object Object]"
  end.

(** [k in v]: a [TypeError] unless [v] is an object. *)
Definition has_property (k : string) (v : maybe) : outcome bool :=
  match v with
  | Some (Object fields) =>
      Ok (bool_decide (is_Some (lookup_field k fields)))
  | Some (Array items) =>
      Ok (String.eqb k "length"
          || bool_decide (is_Some (name_index k (length items))))
  | Some v =>
      Raise (TypeError ("Cannot use 'in' operator to search for '" ++ k
                          ++ "' in " ++ primitive_text v))
  | None =>
      Raise (TypeError ("Cannot use 'in' operator to search for '" ++ k
                          ++ "' in undefined"))
  end.

(** The object [JSON.stringify] serialises: a property whose value is
    [undefined] is left out. *)
Definition object (fields : list (string * maybe)) : value :=
  Object (omap (fun kv => pair (fst kv) <$> snd kv) fields).

End Json.

(** ** The trade capability *)

Module Trade.

Import Js Json.
Export Quantizer.
Local Open Scope string_scope.

(** *** Arguments and collaborators *)

(** [args], as the schema of the capability types it. *)
Record TradeRequest := mkTradeRequest {
  coin : string;
  side : Side;
  size : string;
  leverage : option string;
  reduceOnly : option bool;
  pk_name : string;
  vault_name : option string
}.

(** The environment variables [run] reads. *)
Record Env := mkEnv {
  OPENSERV_API_KEY : option string;
  OPENSERV_API_URL : option string;
  HYPERLIQUID_TESTNET : option string
}.

(** An entry of the secrets listing. *)
Record Secret := mkSecret {
  secret_id : string;
  secret_name : string
}.

(** What the source reads of a [fetch] response. *)
Record Response := mkResponse {
  resp_ok : bool;
  resp_status : Z;
  resp_json : outcome (list Secret);
  resp_text : outcome string
}.

(** An entry of [meta.universe]. *)
Record Asset := mkAsset {
  asset_name : string;
  szDecimals : Z
}.

(** The configuration of [hl.ExchangeClient]. *)
Record ExchangeClient := mkExchangeClient {
  wallet : string;
  defaultVaultAddress : option string;
  isTestnet : bool
}.

(** The single order of [exchClient.order]; the time in force is
    always ['Ioc'] and the grouping ['na']. *)
Record Order := mkOrder {
  order_a : nat;
  order_b : bool;
  order_p : string;
  order_s : string;
  order_r : bool
}.

(** The calls to the collaborators, and the warnings of the two
    best-effort steps (the rest of the console output is left out). *)
Inductive event :=
| EvFetch (url : string) (key : string)
| EvNewHttpTransport (testnet : bool) (timeout : Z)
| EvNewExchangeClient (client : ExchangeClient)
| EvNewInfoClient
| EvAllMids
| EvMeta
| EvUpdateLeverage (client : ExchangeClient) (asset : nat) (isCross : bool)
    (leverage : Num.number)
| EvOrder (client : ExchangeClient) (order : Order)
| EvLog (line : string).

(** The collaborators: each answers a call from the history of the
    invocation so far, newest event first (the call itself is at the
    head), with a value or an exception. *)
Record World := mkWorld {
  fetch : list event -> outcome Response;
  new_HttpTransport : list event -> outcome unit;
  new_ExchangeClient : list event -> outcome unit;
  new_InfoClient : list event -> outcome unit;
  allMids : list event -> outcome (gmap string string);
  meta : list event -> outcome (list Asset);
  updateLeverage : list event -> outcome unit;
  order : list event -> outcome value
}.

(** *** Completions

    A statement completes normally, by [return], or by [throw]. *)
Inductive completion (A : Type) :=
| Normal (a : A)
| Return (result : value)
| Throw (e : Error).
Arguments Normal {A} a.
Arguments Return {A} result.
Arguments Throw {A} e.

Definition M (A : Type) : Type := list event -> completion A * list event.

Definition ret {A} (a : A) : M A := fun h => (Normal a, h).

Definition bind {A B} (m : M A) (k : A -> M B) : M B :=
  fun h =>
    match m h with
    | (Normal a, h') => k a h'
    | (Return r, h') => (Return r, h')
    | (Throw e, h') => (Throw e, h')
    end.

#[export] Instance M_ret : MRet M := @ret.
#[export] Instance M_bind : MBind M := fun A B k m => bind m k.

(** [return JSON.stringify(v)] *)
Definition return_ {A} (v : value) : M A := fun h => (Return v, h).

Definition throw {A} (e : Error) : M A := fun h => (Throw e, h).

(** [await] of a call to a collaborator. *)
Definition call {A} (ev : event) (answer : list event -> outcome A) : M A :=
  fun h =>
    match answer (ev :: h) with
    | Ok a => (Normal a, ev :: h)
    | Raise e => (Throw e, ev :: h)
    end.

(** A value already computed that may be an exception. *)
Definition lift {A} (o : outcome A) : M A :=
  match o with
  | Ok a => ret a
  | Raise e => throw e
  end.

Definition log (line : string) : M unit := fun h => (Normal tt, EvLog line :: h).

(** [try { body } catch (e) { handler }] *)
Definition try_catch {A} (body : M A) (handler : Error -> M A) : M A :=
  fun h =>
    match body h with
    | (Throw e, h') => handler e h'
    | r => r
    end.

Definition when (b : bool) (m : M unit) : M unit :=
  if b then m else ret tt.

(** Truthiness of an optional string ([undefined] and [''] are falsy). *)
Definition nonempty (s : option string) : bool :=
  match s with
  | Some s => negb (Regex.is_empty s)
  | None => false
  end.

Definition dq : string := String Regex.quote "".

Definition failure (error : string) : value :=
  object [("error", Some (Str error)); ("success", Some (Bool false))].

(** [args.side === 'buy'] *)
Definition is_buy (s : Side) : bool :=
  match s with Buy => true | Sell => false end.

Definition side_text (s : Side) : string :=
  match s with Buy => "buy" | Sell => "sell" end.

(** [${response.status}] *)
Definition status_text (status : Z) : string :=
  Num.to_string (Num.of_Z status).

(** [universe.findIndex(u => u.name === name)], with the entry found. *)
Definition find_asset (name : string) (universe : list Asset)
  : option (nat * Asset) :=
  list_find (fun u => asset_name u = name) universe.

Definition find_secret (name : string) (secrets : list Secret)
  : option Secret :=
  List.find (fun s => String.eqb (secret_name s) name) secrets.

(** *** [run] *)

Section Run.

Variable env : Env.
Variable w : World.

(** [env.OPENSERV_API_URL || 'https://api.openserv.ai'] *)
Definition api_url : string :=
  if nonempty (OPENSERV_API_URL env)
  then default "" (OPENSERV_API_URL env)
  else "https://api.openserv.ai".

(** [${OPENSERV_API_URL}/workspaces/${workspaceId}/agent-secrets] *)
Definition secrets_url (workspaceId : string) : string :=
  api_url ++ "/workspaces/" ++ workspaceId ++ "/agent-secrets".

(** Step 1: the private key and the optional vault address, from the
    secrets of the workspace. *)
Definition fetch_credentials (args : TradeRequest)
  (workspaceId : option string) : M (string * option string) :=
  if negb (nonempty workspaceId) then
    return_ (failure "Workspace ID is required to fetch secrets")
  else
  let workspaceId := default "" workspaceId in
  if negb (nonempty (OPENSERV_API_KEY env)) then
    return_ (failure "OPENSERV_API_KEY not configured")
  else
  let key := default "" (OPENSERV_API_KEY env) in
  let secrets_url := secrets_url workspaceId in
  secretsListResponse ← call (EvFetch secrets_url key) (fetch w);
  if negb (resp_ok secretsListResponse) then
    return_ (failure ("Failed to list secrets: "
                        ++ status_text (resp_status secretsListResponse)))
  else
  secrets ← lift (resp_json secretsListResponse);
  let privateKeySecret := find_secret (pk_name args) secrets in
  let vaultAddressSecret :=
    if nonempty (vault_name args)
    then find_secret (default "" (vault_name args)) secrets
    else None in
  match privateKeySecret with
  | None =>
      return_
        (object
           [("error", Some (Str ("Secret " ++ dq ++ pk_name args ++ dq
                                   ++ " not found in OpenServ workspace")));
            ("availableSecrets",
             Some (Array (map (fun s => Str (secret_name s)) secrets)));
            ("success", Some (Bool false))])
  | Some privateKeySecret =>
      when (nonempty (vault_name args)
            && bool_decide (vaultAddressSecret = None))
        (log ("   ⚠️  Vault secret " ++ dq ++ default "" (vault_name args)
                ++ dq ++ " not found, continuing without vault"));;
      privateKeyResponse ←
        call (EvFetch (secrets_url ++ "/" ++ secret_id privateKeySecret
                         ++ "/value") key) (fetch w);
      if negb (resp_ok privateKeyResponse) then
        return_ (failure ("Failed to get " ++ dq ++ pk_name args ++ dq
                            ++ " value: "
                            ++ status_text (resp_status privateKeyResponse)))
      else
      text ← lift (resp_text privateKeyResponse);
      let PRIVATE_KEY := Regex.strip_quotes text in
      VAULT_ADDRESS ←
        match vaultAddressSecret with
        | Some vaultAddressSecret =>
            vaultResponse ←
              call (EvFetch (secrets_url ++ "/"
                               ++ secret_id vaultAddressSecret ++ "/value")
                      key) (fetch w);
            if resp_ok vaultResponse then
              text ← lift (resp_text vaultResponse);
              mret (Some (Regex.strip_quotes text))
            else mret None
        | None => mret None
        end;
      mret (PRIVATE_KEY, VAULT_ADDRESS)
  end.

(** Step 2: the exchange client. *)
Definition init_client (PRIVATE_KEY : string)
  (VAULT_ADDRESS : option string) : M ExchangeClient :=
  let IS_TESTNET := bool_decide (HYPERLIQUID_TESTNET env = Some "true") in
  call (EvNewHttpTransport IS_TESTNET 30000) (new_HttpTransport w);;
  let exchClient := mkExchangeClient PRIVATE_KEY VAULT_ADDRESS IS_TESTNET in
  call (EvNewExchangeClient exchClient) (new_ExchangeClient w);;
  mret exchClient.

(** Step 3: the current mid price of the coin. *)
Definition fetch_price (args : TradeRequest) : M string :=
  call EvNewInfoClient (new_InfoClient w);;
  mids ← call EvAllMids (allMids w);
  let coinPrice := mids !! coin args in
  if negb (nonempty coinPrice) then
    return_ (failure ("Coin " ++ dq ++ coin args ++ dq
                        ++ " not found. Check symbol (e.g., " ++ dq ++ "BTC"
                        ++ dq ++ ", " ++ dq ++ "ETH" ++ dq ++ ")"))
  else mret (default "" coinPrice).

(** Step 4: the leverage update, inside its own [try]. *)
Definition update_leverage (args : TradeRequest)
  (exchClient : ExchangeClient) : M unit :=
  if nonempty (leverage args) then
    try_catch
      (universe ← call EvMeta (meta w);
       match find_asset (coin args) universe with
       | None =>
           return_ (failure ("Asset " ++ coin args
                               ++ " not found in universe"))
       | Some (assetIndex, _) =>
           call (EvUpdateLeverage exchClient assetIndex true
                   (Num.parseInt (default "" (leverage args))))
             (updateLeverage w)
       end)
      (fun leverageError =>
         log ("   ⚠️  Leverage update failed: " ++ message leverageError);;
         log "   Continuing with current account leverage...")
  else mret tt.

(** Steps 5 to 7: the asset index and decimals, the limit price, and
    the immediate-or-cancel order. *)
Definition place_order (args : TradeRequest) (exchClient : ExchangeClient)
  (coinPrice : string) : M value :=
  universe ← call EvMeta (meta w);
  match find_asset (coin args) universe with
  | None => return_ (failure ("Asset " ++ coin args ++ " not found"))
  | Some (assetIndex, assetInfo) =>
      let limitPrice :=
        limitPriceOf coinPrice (side args) (szDecimals assetInfo) in
      call (EvOrder exchClient
              (mkOrder assetIndex
                 (is_buy (side args))
                 limitPrice
                 (size args)
                 (default false (reduceOnly args))))
        (order w)
  end.

(** The three result objects of a classified status, and the one of
    an unexpected response. *)
Definition filled_result (args : TradeRequest) (avgPx totalSz oid : maybe)
  : value :=
  object
    [("success", Some (Bool true));
     ("coin", Some (Str (coin args)));
     ("side", Some (Str (side_text (side args))));
     ("size", Some (Str (size args)));
     ("leverage", Str <$> leverage args);
     ("avgFillPrice", avgPx);
     ("totalFilled", totalSz);
     ("oid", oid);
     ("message",
      Some (Str ("Successfully "
                   ++ (match side args with
                       | Buy => "longed"
                       | Sell => "shorted"
                       end)
                   ++ " " ++ size args ++ " " ++ coin args)))].

Definition rejected_result (args : TradeRequest) (error : maybe) : value :=
  object
    [("success", Some (Bool false));
     ("error", error);
     ("coin", Some (Str (coin args)));
     ("side", Some (Str (side_text (side args))))].

Definition resting_result (args : TradeRequest) (oid : maybe) : value :=
  object
    [("success", Some (Bool true));
     ("status", Some (Str "resting"));
     ("oid", oid);
     ("message", Some (Str "Order placed and waiting to be filled"));
     ("coin", Some (Str (coin args)));
     ("side", Some (Str (side_text (side args))))].

Definition unexpected_result (orderResult : value) : value :=
  object
    [("success", Some (Bool false));
     ("error", Some (Str "Unexpected response from exchange"));
     ("response", Some orderResult)].

(** [orderResult.response.type === 'order'
     && orderResult.response.data?.statuses[0]] *)
Definition first_status (orderResult : value) : outcome maybe :=
  match get (Some orderResult) "response" with
  | Raise e => Raise e
  | Ok response =>
      match get response "type" with
      | Raise e => Raise e
      | Ok (Some (Str "order")) =>
          match get response "data" with
          | Raise e => Raise e
          | Ok (None | Some Null) => Ok None
          | Ok data =>
              match get data "statuses" with
              | Raise e => Raise e
              | Ok statuses => get statuses "0"
              end
          end
      | Ok _ => Ok (Some (Bool false))
      end
  end.

(** Lines 297-356: the result for the reply of the exchange.  The
    average price falls back to the limit price in the console line of
    the filled branch only, which is not part of the result. *)
Definition classify (args : TradeRequest) (orderResult : value) : M value :=
  status ← lift (first_status orderResult);
  (if truthy status then
     filled ← lift (has_property "filled" status);
     if filled : bool then
       filled ← lift (get status "filled");
       avgPx ← lift (get filled "avgPx");
       totalSz ← lift (get filled "totalSz");
       oid ← lift (get filled "oid");
       return_ (filled_result args avgPx totalSz oid)
     else
       error ← lift (has_property "error" status);
       if error : bool then
         error ← lift (get status "error");
         return_ (rejected_result args error)
       else
         resting ← lift (has_property "resting" status);
         if resting : bool then
           resting ← lift (get status "resting");
           oid ← lift (get resting "oid");
           return_ (resting_result args oid)
         else mret tt
   else mret tt);;
  return_ (unexpected_result orderResult).

(** Steps 4 to 7, once the client and the price are known. *)
Definition trade (args : TradeRequest) (exchClient : ExchangeClient)
  (coinPrice : string) : M value :=
  update_leverage args exchClient;;
  orderResult ← place_order args exchClient coinPrice;
  classify args orderResult.

(** Steps 2 to 7, once the credentials are known. *)
Definition trade_as (args : TradeRequest) (PRIVATE_KEY : string)
  (VAULT_ADDRESS : option string) : M value :=
  exchClient ← init_client PRIVATE_KEY VAULT_ADDRESS;
  coinPrice ← fetch_price args;
  trade args exchClient coinPrice.

(** The body of the outer [try]. *)
Definition run_body (args : TradeRequest) (workspaceId : option string)
  : M value :=
  '(PRIVATE_KEY, VAULT_ADDRESS) ← fetch_credentials args workspaceId;
  trade_as args PRIVATE_KEY VAULT_ADDRESS.

(** The outer [catch]: the result carries
    [err?.message || 'Unknown error']. *)
Definition exception_result (err : Error) : value :=
  failure (if Regex.is_empty (message err) then "Unknown error"
           else message err).

Definition on_exception (err : Error) : M value :=
  return_ (exception_result err).

(** [run({ args, action })], with [workspaceId] the value of
    [action?.workspace?.id]: the completion of the method and the
    events of the invocation, newest first. *)
Definition run (args : TradeRequest) (workspaceId : option string)
  : completion value * list event :=
  try_catch (run_body args workspaceId) on_exception [].

End Run.

End Trade.

(** ** Statements about Numbers and prices *)

Module NumSpec.

Import Num Quantizer.
Local Open Scope Z_scope.

Definition is_digit (d : Z) : Prop := 0 <= d <= 9.

(** The string does not go on with a decimal digit. *)
Definition no_digit_ahead (s : string) : Prop :=
  match s with
  | String c _ => char_digit c = None
  | EmptyString => True
  end.

(** A positive, finite Number. *)
Definition positive (x : number) : Prop :=
  match x with
  | Finite false m _ => 0 < m
  | _ => False
  end.


(** The tick of the table of the specification, as a decimal. *)
Definition exact_tick (sizeDecimals : Z) : Q :=
  if 5 <=? sizeDecimals then 1
  else if sizeDecimals =? 4 then 1 # 10
  else if sizeDecimals =? 3 then 1 # 100
  else 1 # 1000.


End NumSpec.

(** ** Statements about [run]: results, shapes and histories *)

Module TradeSpec.
Import Js Json Trade.
Local Open Scope string_scope.




(** The caller-facing outcomes of a submission, and the case the
    classifier itself throws. *)
Inductive OrderOutcome :=
| Filled (avgPrice totalSize orderId : maybe)
| Rejected (reason : maybe)
| Resting (orderId : maybe)
| Malformed (rawResponse : value)
| Crashed (e : Error).

Definition outcome_completion (args : TradeRequest) (o : OrderOutcome)
  : completion value :=
  match o with
  | Filled a t i => Return (filled_result args a t i)
  | Rejected e => Return (rejected_result args e)
  | Resting i => Return (resting_result args i)
  | Malformed r => Return (unexpected_result r)
  | Crashed e => Throw e
  end.


(** The console line of step 1 for a vault secret that is not listed. *)
Definition vault_warning (vault : string) : event :=
  EvLog ("   ⚠️  Vault secret " ++ dq ++ vault ++ dq
           ++ " not found, continuing without vault").

Definition secret_value_url (env : Env) (workspaceId : string) (s : Secret)
  : string :=
  secrets_url env workspaceId ++ "/" ++ secret_id s ++ "/value".



Definition no_vault_order (ev : event) : Prop :=
  match ev with
  | EvOrder client _ => defaultVaultAddress client = None
  | _ => True
  end.


Definition never_normal {A} (m : M A) : Prop :=
  forall h a h', m h <> (Normal a, h').

Definition emits {A} (P : event -> Prop) (m : M A) : Prop :=
  forall h, Forall P h -> Forall P (snd (m h)).

End TradeSpec.

(** ** Concrete invocations *)

Module Scenarios.

Import Js Json Trade TradeSpec.
Local Open Scope string_scope.

Definition env0 : Env := mkEnv (Some "KEY") None None.

Definition listing : list Secret := [mkSecret "1" "k1"; mkSecret "2" "k2"].

Definition list_url : string :=
  "https://api.openserv.ai/workspaces/ws1/agent-secrets".

(** A secret store with the secrets [k1] and [k2]; every value reads
    as the quoted text ["0xabc"]. *)
Definition store (h : list event) : outcome Response :=
  match h with
  | EvFetch url _ :: _ =>
      if String.eqb url list_url
      then Ok (mkResponse true 200 (Ok listing) (Ok ""))
      else Ok (mkResponse true 200 (Ok [])
                 (Ok (String Regex.quote "0xabc" ++ dq)))
  | _ => Raise (mkError "not a fetch" None)
  end.

Definition universe0 : list Asset := [mkAsset "ETH" 4; mkAsset "BTC" 5].

Definition world (meta : list event -> outcome (list Asset))
  (updateLeverage : list event -> outcome unit)
  (order : list event -> outcome value) : World :=
  mkWorld store (fun _ => Ok tt) (fun _ => Ok tt) (fun _ => Ok tt)
    (fun _ => Ok {[ "BTC" := "50000" ]}) meta updateLeverage order.

Definition reply (status : value) : value :=
  Object
    [("status", Str "ok");
     ("response",
      Object [("type", Str "order");
              ("data", Object [("statuses", Array [status])])])].

Definition filled_status : value :=
  Object [("filled",
           Object [("totalSz", Str "0.01"); ("avgPx", Str "50010");
                   ("oid", Number (Num.of_Z 77))])].

Definition request : TradeRequest :=
  mkTradeRequest "BTC" Buy "0.01" (Some "5") None "k1" None.

Definition rejected : Error := mkError "leverage rejected" None.

(** The exchange fills the order; the leverage update is rejected. *)
Definition world_leverage_rejected : World :=
  world (fun _ => Ok universe0) (fun _ => Raise rejected)
    (fun _ => Ok (reply filled_status)).



(** The exchange answers with a status that is a string. *)
Definition world_waiting : World :=
  world (fun _ => Ok universe0) (fun _ => Ok tt)
    (fun _ => Ok (reply (Str "waitingForFill"))).

Definition client0 : ExchangeClient := mkExchangeClient "0xabc" None false.




(** The prices of the numeric examples. *)
Definition price_50000 : Num.number := Eval vm_compute in Num.parseFloat "50000".
Definition price_1_4 : Num.number := Eval vm_compute in Num.parseFloat "1.4".
Definition price_1_6 : Num.number := Eval vm_compute in Num.parseFloat "1.6".

Definition lone_leading : string := String Regex.quote "abc".
Definition lone_trailing : string := "abc" ++ dq.

End Scenarios.

(** ** Strings *)

Module Text.

Local Open Scope Z_scope.

(** [s.substring(start, end)]: each bound is clamped to
    [0 .. s.length], and the two are swapped when [start > end];
    [end_ = None] is the call with one argument.  Positions count the
    characters of the string as the model has them (for the ASCII text
    of keys, the code units of the source). *)
Definition substring (s : string) (start : Z) (end_ : option Z) : string :=
  let len := Z.of_nat (String.length s) in
  let clamp i := Z.min (Z.max i 0) len in
  let a := clamp start in
  let b := match end_ with Some e => clamp e | None => len end in
  let from := Z.min a b in
  let to := Z.max a b in
  String.substring (Z.to_nat from) (Z.to_nat (to - from)) s.

(** The line feed of ['\n'], and the rule of the banners. *)
Definition nl : string := String "010" "".

Definition rule : string := "========================================".

End Text.

(** ** The console lines that show a key *)

Module Console.

Import Text.
Local Open Scope string_scope.

(** Line 173 of [run]:
    [`   Private Key: ${PRIVATE_KEY.substring(0, 10)}...${PRIVATE_KEY.substring(PRIVATE_KEY.length - 4)}`] *)
Definition private_key_line (PRIVATE_KEY : string) : string :=
  "   Private Key: " ++ substring PRIVATE_KEY 0 (Some 10%Z) ++ "..."
  ++ substring PRIVATE_KEY (Z.of_nat (String.length PRIVATE_KEY) - 4) None.

(** The banner of the server:
    [`   OPENSERV_API_KEY: ${OPENSERV_API_KEY.substring(0, 8)}...`] *)
Definition api_key_line (OPENSERV_API_KEY : string) : string :=
  "   OPENSERV_API_KEY: " ++ substring OPENSERV_API_KEY 0 (Some 8%Z) ++ "...".

End Console.

(** ** The test capability ([capabilities/test.ts]) *)

Module TestCapability.

Import Js Json Text.
Local Open Scope string_scope.

(** A line of the console: a text, or the JSON text of a value
    ([console.log(JSON.stringify(v, null, 2))]). *)
Inductive line :=
| Line (text : string)
| JsonLine (v : value).

(** The object of lines 28-32:
    [{ type: action.type, taskId: action.task?.id,
       workspaceId: action.workspace?.id }] *)
Definition action_context (action : maybe) : outcome value :=
  match get action "type" with
  | Raise e => Raise e
  | Ok type =>
      match get action "task" with
      | Raise e => Raise e
      | Ok task =>
          match get_optional task "id" with
          | Raise e => Raise e
          | Ok taskId =>
              match get action "workspace" with
              | Raise e => Raise e
              | Ok workspace =>
                  match get_optional workspace "id" with
                  | Raise e => Raise e
                  | Ok workspaceId =>
                      Ok (object [("type", type); ("taskId", taskId);
                                  ("workspaceId", workspaceId)])
                  end
              end
          end
      end
  end.

Definition opening (args : value) : list line :=
  [Line (nl ++ rule); Line "🎉 HYPERLIQUID AGENT TEST"; Line rule;
   Line (nl ++ "📋 ARGS RECEIVED:"); JsonLine args].

Definition closing : list line :=
  [Line (nl ++ rule); Line "✅ Test capability finished"; Line (rule ++ nl)].

Definition result (timestamp : string) (args : value) : value :=
  object [("success", Some (Bool true));
          ("message", Some (Str "Test capability executed successfully"));
          ("timestamp", Some (Str timestamp));
          ("receivedArgs", Some args)].

(** [run({ args, action })]: the value returned or the exception
    thrown, and the lines of the console, oldest first; [timestamp] is
    [new Date().toISOString()]. *)
Definition run (timestamp : string) (args : value) (action : maybe)
  : outcome value * list line :=
  if truthy action then
    match action_context action with
    | Raise e =>
        (Raise e, (opening args ++ [Line (nl ++ "📦 ACTION CONTEXT:")])%list)
    | Ok context =>
        (Ok (result timestamp args),
         (opening args
            ++ [Line (nl ++ "📦 ACTION CONTEXT:"); JsonLine context]
            ++ closing)%list)
    end
  else (Ok (result timestamp args), (opening args ++ closing)%list).

End TestCapability.

(** ** The capabilities index ([capabilities/index.ts]) *)

Module Capabilities.

Local Open Scope string_scope.

(** A [CapabilityConfig], without its schema and its [run]. *)
Record CapabilityConfig := mkCapability {
  name : string;
  description : string
}.

Definition createTestCapability : CapabilityConfig :=
  mkCapability "test" "Test capability that logs all received parameters".

Definition createTradeCapability : CapabilityConfig :=
  mkCapability "trade"
    "Place a leverage trade on Hyperliquid perpetuals (e.g., BTC, ETH)".

Definition getAllCapabilities : list CapabilityConfig :=
  [createTestCapability; createTradeCapability].

End Capabilities.

(** ** The agent server ([agent-server.ts]) *)

Module Server.

Import Js Text Capabilities.
Local Open Scope string_scope.

Record ProcessEnv := mkProcessEnv {
  OPENSERV_API_KEY : option string;
  PORT : option string;
  HYPERLIQUID_TESTNET : option string
}.

(** The console, the agent and the process, as the script uses them. *)
Inductive event :=
| ConsoleLog (text : string)
| ConsoleError (text : string)
| ConsoleErrorWith (text : string) (e : Error)
| NewAgent (systemPrompt apiKey : string)
| AddCapability (capability : CapabilityConfig)
| Start
| OnSigint
| Stop
| Exit (code : Z).

(** The agent and [process.on]: each call answers from the history so
    far, newest first, or throws. *)
Record World := mkWorld {
  new_Agent : list event -> outcome unit;
  addCapability : list event -> outcome unit;
  start : list event -> outcome unit;
  on_SIGINT : list event -> outcome unit;
  stop : list event -> outcome unit
}.

(** A statement completes normally, throws, or ends the process. *)
Inductive completion (A : Type) :=
| Normal (a : A)
| Throw (e : Error)
| Exited (code : Z).
Arguments Normal {A} a.
Arguments Throw {A} e.
Arguments Exited {A} code.

Definition P (A : Type) : Type := list event -> completion A * list event.

Definition ret {A} (a : A) : P A := fun h => (Normal a, h).

Definition bind {A B} (m : P A) (k : A -> P B) : P B :=
  fun h =>
    match m h with
    | (Normal a, h') => k a h'
    | (Throw e, h') => (Throw e, h')
    | (Exited code, h') => (Exited code, h')
    end.

#[local] Instance P_ret : MRet P := @ret.
#[local] Instance P_bind : MBind P := fun A B k m => bind m k.

Definition call (ev : event) (answer : list event -> outcome unit) : P unit :=
  fun h =>
    match answer (ev :: h) with
    | Ok a => (Normal a, ev :: h)
    | Raise e => (Throw e, ev :: h)
    end.

Definition emit (ev : event) : P unit := fun h => (Normal tt, ev :: h).

(** [process.exit(code)] *)
Definition exit {A} (code : Z) : P A := fun h => (Exited code, Exit code :: h).

(** [try { body } catch (e) { handler }] and [promise.catch(handler)] *)
Definition try_catch {A} (body : P A) (handler : Error -> P A) : P A :=
  fun h =>
    match body h with
    | (Throw e, h') => handler e h'
    | r => r
    end.

(** [try { body } finally { final }], for a [final] that ends the
    process: its completion is the one of the statement. *)
Definition try_finally {A} (body : P A) (final : P A) : P A :=
  fun h =>
    match body h with
    | (Exited code, h') => (Exited code, h')
    | (_, h') => final h'
    end.

(** [items.forEach(body)] *)
Fixpoint for_each {A} (items : list A) (body : A -> P unit) : P unit :=
  match items with
  | [] => mret tt
  | x :: rest => body x;; for_each rest body
  end.

Definition nonempty (s : option string) : bool :=
  match s with
  | Some s => negb (Regex.is_empty s)
  | None => false
  end.

(** [a || b] on an optional string. *)
Definition or_else (a : option string) (b : string) : string :=
  if nonempty a then default "" a else b.

Definition systemPrompt : string :=
  "You are a Hyperliquid leverage trading agent that executes perpetual futures orders.".

Section Script.

Variable env : ProcessEnv.
Variable w : World.

Definition capabilities : list CapabilityConfig := getAllCapabilities.

(** [main()], an async function: the statements after
    [await agent.start()] run once the promise resolves, and an
    exception anywhere in the function rejects the promise of the
    call, which [script] handles. *)
Definition main (key : string) : P unit :=
  emit (ConsoleLog (nl ++ rule));;
  emit (ConsoleLog "⚡ HYPERLIQUID TRADING AGENT");;
  emit (ConsoleLog rule);;
  emit (ConsoleLog "📋 Configuration:");;
  emit (ConsoleLog ("   PORT: " ++ or_else (PORT env) "7380 (default)"));;
  emit (ConsoleLog (Console.api_key_line key));;
  emit (ConsoleLog ("   HYPERLIQUID_TESTNET: "
                      ++ or_else (HYPERLIQUID_TESTNET env) "false (mainnet)"));;
  emit (ConsoleLog (rule ++ nl));;
  call Start (start w);;
  emit (ConsoleLog "✅ Agent listening");;
  emit (ConsoleLog ("🔧 Capabilities:    "
                      ++ Trade.status_text (Z.of_nat (length capabilities))
                      ++ " registered"));;
  for_each capabilities (fun cap => emit (ConsoleLog ("   - " ++ name cap)));;
  call OnSigint (on_SIGINT w).

(** The module, from its first statement to [main().catch(...)]. *)
Definition script : P unit :=
  let key := or_else (OPENSERV_API_KEY env) "" in
  (if Regex.is_empty key then
     emit (ConsoleError "❌ Please set OPENSERV_API_KEY in your environment");;
     exit 1
   else mret tt);;
  call (NewAgent systemPrompt key) (new_Agent w);;
  for_each capabilities
    (fun capability =>
       call (AddCapability capability) (addCapability w);;
       emit (ConsoleLog ("✅ Registered capability: " ++ name capability)));;
  try_catch (main key)
    (fun e =>
       emit (ConsoleErrorWith "❌ Failed to start agent:" e);;
       exit 1).

(** The handler of [SIGINT]. *)
Definition on_sigint : P unit :=
  emit (ConsoleLog (nl ++ "🛑 Shutting down..."));;
  try_finally
    (try_catch
       (call Stop (stop w);; emit (ConsoleLog "✅ Agent stopped"))
       (fun e => emit (ConsoleErrorWith "❌ Error while stopping agent:" e)))
    (exit 0).

End Script.

End Server.

(** ** Statements about the calls of an invocation *)

Module RunSpec.

Import Js Json Trade TradeSpec.
Local Open Scope string_scope.

Definition not_order (ev : event) : Prop :=
  match ev with EvOrder _ _ => False | _ => True end.

(** A result object whose [success] is [b]. *)
Definition has_success (b : bool) (r : value) : Prop :=
  exists fields, r = Object fields
    /\ lookup_field "success" fields = Some (Bool b).

(** [env.HYPERLIQUID_TESTNET === 'true'] *)
Definition on_testnet (env : Env) : bool :=
  bool_decide (HYPERLIQUID_TESTNET env = Some "true").

(** Every request to the secret store carries the configured key and
    goes to the secrets of the workspace. *)
Definition keyed_fetch (env : Env) (workspaceId : option string)
  (ev : event) : Prop :=
  match ev with
  | EvFetch url key =>
      OPENSERV_API_KEY env = Some key /\ key <> ""
      /\ exists ws rest, workspaceId = Some ws /\ ws <> ""
           /\ url = secrets_url env ws ++ rest
  | _ => True
  end.

(** The transport, the client and every call made through it are for
    the network of the environment. *)
Definition on_network (env : Env) (ev : event) : Prop :=
  match ev with
  | EvNewHttpTransport testnet timeout =>
      testnet = on_testnet env /\ timeout = 30000%Z
  | EvNewExchangeClient client
  | EvUpdateLeverage client _ _ _
  | EvOrder client _ => isTestnet client = on_testnet env
  | _ => True
  end.

(** The order is the one of the request. *)
Definition as_requested (args : TradeRequest) (ev : event) : Prop :=
  match ev with
  | EvOrder _ o =>
      order_b o = is_buy (side args) /\ order_s o = size args
      /\ order_r o = default false (reduceOnly args)
  | _ => True
  end.

(** The leverage is touched on request only, in cross mode. *)
Definition leverage_as_requested (args : TradeRequest) (ev : event) : Prop :=
  match ev with
  | EvUpdateLeverage _ _ isCross lev =>
      isCross = true
      /\ exists text, leverage args = Some text /\ text <> ""
           /\ lev = Num.parseInt text
  | _ => True
  end.

(** The status of a response prints as its decimal digits. *)
Definition status_checked (n : nat) : bool :=
  String.eqb (status_text (Z.of_nat n))
    (Num.string_of_digits (Num.digits_of (Z.of_nat n))).

(** Every [return] of [m] gives a result that satisfies [Q]. *)
Definition returns_only {A} (Q : value -> Prop) (m : M A) : Prop :=
  forall h r h', m h = (Return r, h') -> Q r.

(** [m] submits at most one order, as its newest call, and a [return]
    without an order gives a failure. *)
Definition settles {A} (m : M A) : Prop :=
  forall h, Forall not_order h ->
    (exists client o h', snd (m h) = EvOrder client o :: h'
       /\ Forall not_order h')
    \/ (Forall not_order (snd (m h))
        /\ forall r, fst (m h) = Return r -> has_success false r).

(** Every normal completion of [m] gives a value that satisfies [Q]. *)
Definition yields_only {A} (Q : A -> Prop) (m : M A) : Prop :=
  forall h a h', m h = (Normal a, h') -> Q a.

(** The history only grows: [m] puts its events in front of it. *)
Definition extends {A} (m : M A) : Prop :=
  forall h, exists evs, snd (m h) = (evs ++ h)%list.

End RunSpec.

(** ** Statements about the limit price and the leverage *)

Module PriceSpec.

Import Num NumSpec Quantizer.
Local Open Scope string_scope.

(** A decimal without sign or exponent: digits, and [f] more of them
    after a point when [f] is not zero. *)
Definition plain_decimal (f : nat) (s : string) : Prop :=
  exists int frac,
    Forall is_digit int /\ Forall is_digit frac
    /\ int <> [] /\ length frac = f
    /\ s = string_of_digits int
           ++ match f with
              | O => ""
              | _ => "." ++ string_of_digits frac
              end.

(** The slippage factors, as the decimals the source writes. *)
Definition exact_adjustment (side : Side) : Q :=
  match side with Buy => 1002 # 1000 | Sell => 998 # 1000 end.

(** The string goes on with [x] or [X]. *)
Definition hex_marker (s : string) : bool :=
  match s with
  | String c _ => (Ascii.eqb c "x" || Ascii.eqb c "X")%bool
  | EmptyString => false
  end.

End PriceSpec.

(** ** Statements about the server *)

Module ServerSpec.

Import Capabilities Server.
Local Open Scope string_scope.

(** The agent is made with the key of the environment. *)
Definition agent_keyed (env : ProcessEnv) (ev : event) : Prop :=
  match ev with
  | NewAgent prompt key =>
      prompt = systemPrompt /\ OPENSERV_API_KEY env = Some key /\ key <> ""
  | _ => True
  end.

(** The capabilities added to the agent in the history [h] (newest
    event first), in the order of the calls. *)
Definition registered (h : list event) : list CapabilityConfig :=
  omap (fun ev => match ev with
                  | AddCapability c => Some c
                  | _ => None
                  end) (reverse h).

End ServerSpec.

(** ** Statements about the number of calls *)

Module BudgetSpec.
Import Js Json Trade.

(** The kinds of calls to the collaborators. *)
Inductive call_kind := SecretStore | Prices | Metadata | Leverage | Submission.

Definition is_call (k : call_kind) (ev : event) : bool :=
  match k, ev with
  | SecretStore, EvFetch _ _ => true
  | Prices, EvAllMids => true
  | Metadata, EvMeta => true
  | Leverage, EvUpdateLeverage _ _ _ _ => true
  | Submission, EvOrder _ _ => true
  | _, _ => false
  end.

(** The number of calls of a kind in a history. *)
Definition calls (k : call_kind) (h : list event) : nat :=
  length (List.filter (is_call k) h).

(** The most calls of a kind an invocation makes. *)
Definition budget (k : call_kind) : nat :=
  match k with
  | SecretStore => 3
  | Prices => 1
  | Metadata => 2
  | Leverage => 1
  | Submission => 1
  end.

(** [m] makes at most [n] calls of the kind [k]. *)
Definition calls_at_most {A} (k : call_kind) (n : nat) (m : M A) : Prop :=
  forall h, (calls k (snd (m h)) <= calls k h + n)%nat.

End BudgetSpec.

(** ** Statements about the request for the key *)

Module KeySpec.
Import Js Json Trade TradeSpec.
Local Open Scope string_scope.

(** The console line of step 1 between the listing and the request
    for the key: the warning for a vault secret that is asked for and
    not listed. *)
Definition vault_notice (args : TradeRequest) (secrets : list Secret)
  : list event :=
  if nonempty (vault_name args)
     && bool_decide (find_secret (default "" (vault_name args)) secrets
                     = None)
  then [vault_warning (default "" (vault_name args))]
  else [].

End KeySpec.

(** ** More concrete invocations *)

Module Examples.

Import Js Json Trade Scenarios.
Local Open Scope string_scope.

(** The secret store refuses the listing. *)
Definition forbidden : Response :=
  mkResponse false 403 (Ok []) (Ok "Forbidden").

Definition world_forbidden : World :=
  mkWorld (fun _ => Ok forbidden) (fun _ => Ok tt) (fun _ => Ok tt)
    (fun _ => Ok tt) (fun _ => Ok ∅) (fun _ => Ok []) (fun _ => Ok tt)
    (fun _ => Ok Null).

(** The secret store lists the secrets and refuses their values. *)
Definition denied : Response := mkResponse false 401 (Ok []) (Ok "").

Definition world_key_denied : World :=
  mkWorld
    (fun h =>
       match h with
       | EvFetch url _ :: _ =>
           if String.eqb url list_url
           then Ok (mkResponse true 200 (Ok listing) (Ok ""))
           else Ok denied
       | _ => Ok denied
       end)
    (fun _ => Ok tt) (fun _ => Ok tt) (fun _ => Ok tt) (fun _ => Ok ∅)
    (fun _ => Ok []) (fun _ => Ok tt) (fun _ => Ok Null).

(** A server with its key, and an agent that starts. *)
Definition server_env : Server.ProcessEnv :=
  Server.mkProcessEnv (Some "sk-0123456789") None None.

Definition server_world : Server.World :=
  Server.mkWorld (fun _ => Ok tt) (fun _ => Ok tt) (fun _ => Ok tt)
    (fun _ => Ok tt) (fun _ => Ok tt).

End Examples.

(** ** Rounding to a Number *)

Module NumFacts.

Import Num.
Local Open Scope Q_scope.

Lemma pow2_pos e : 0 < pow2 e.
Proof. apply Qpower_0_lt. lra. Qed.

Lemma pow2_plus a b : pow2 (a + b) == pow2 a * pow2 b.
Proof. apply Qpower_plus. lra. Qed.

Lemma pow2_succ a : pow2 (a + 1) == 2 * pow2 a.
Proof. rewrite pow2_plus. unfold pow2 at 2. simpl. lra. Qed.

Lemma pow2_le a b : (a <= b)%Z -> pow2 a <= pow2 b.
Proof. intros. apply Qpower_le_compat_l; [done|lra]. Qed.

Lemma pow2_lt a b : (a < b)%Z -> pow2 a < pow2 b.
Proof. intros. apply Qpower_lt_compat_l; [done|lra]. Qed.

Lemma pow2_inject e : (0 <= e)%Z -> pow2 e == inject_Z (2 ^ e).
Proof. intros. unfold pow2. by rewrite Zpower_Qpower. Qed.

Lemma Q_as_fraction x : x * inject_Z (Zpos (Qden x)) == inject_Z (Qnum x).
Proof.
  destruct x as [n d]. unfold Qeq, Qmult, inject_Z. simpl. lia.
Qed.

Lemma inject_Z_le a b : (a <= b)%Z -> inject_Z a <= inject_Z b.
Proof. by rewrite <- Zle_Qle. Qed.

Lemma inject_Z_lt a b : (a < b)%Z -> inject_Z a < inject_Z b.
Proof. by rewrite <- Zlt_Qlt. Qed.

Lemma ilog2_spec x :
  0 < x -> pow2 (ilog2 x) <= x /\ x < pow2 (ilog2 x + 1).
Proof.
  intros Hx. unfold ilog2.
  set (n := Qnum x). set (d := Zpos (Qden x)).
  assert (Hn : (0 < n)%Z) by (destruct x as [[|?|?] ?]; done).
  pose proof (Q_as_fraction x) as Hf. fold n d in Hf.
  destruct (Z.log2_spec n Hn) as [Hn1 Hn2].
  destruct (Z.log2_spec d eq_refl) as [Hd1 Hd2].
  pose proof (Z.log2_nonneg n) as Hln. pose proof (Z.log2_nonneg d) as Hld.
  set (ln := Z.log2 n) in *. set (ld := Z.log2 d) in *.
  apply inject_Z_le in Hn1, Hd1. apply inject_Z_lt in Hn2, Hd2.
  rewrite <- Z.add_1_r in Hn2, Hd2.
  rewrite <- pow2_inject in Hn1, Hn2, Hd1, Hd2 by lia.
  pose proof (pow2_pos (ln - ld)) as Hp.
  pose proof (pow2_pos ld) as Hpd.
  assert (E1 : pow2 ln == pow2 (ln - ld) * pow2 ld).
  { rewrite <- pow2_plus. by replace (ln - ld + ld)%Z with ln by lia. }
  rewrite pow2_succ in Hn2, Hd2.
  assert (Hlow : pow2 (ln - ld) < 2 * x) by nra.
  assert (Hhigh : x < 2 * pow2 (ln - ld)) by nra.
  destruct (Qle_bool (pow2 (ln - ld)) x) eqn:E.
  - apply Qle_bool_iff in E. split; [done|]. by rewrite pow2_succ.
  - assert (x < pow2 (ln - ld)).
    { apply Qnot_le_lt. intros H. apply Qle_bool_iff in H. congruence. }
    replace (ln - ld - 1 + 1)%Z with (ln - ld)%Z by lia. split; [|done].
    assert (E2 : pow2 (ln - ld) == 2 * pow2 (ln - ld - 1)).
    { rewrite <- pow2_succ. by replace (ln - ld - 1 + 1)%Z with (ln - ld)%Z by lia. }
    lra.
Qed.

Lemma ilog2_unique x k :
  pow2 k <= x -> x < pow2 (k + 1) -> ilog2 x = k.
Proof.
  intros H1 H2.
  assert (Hx : 0 < x) by (pose proof (pow2_pos k); lra).
  destruct (ilog2_spec x Hx) as [H3 H4].
  destruct (Z.lt_trichotomy (ilog2 x) k) as [Hlt|[->|Hgt]]; [|done|].
  - assert (pow2 (ilog2 x + 1) <= pow2 k) by (apply pow2_le; lia). lra.
  - assert (pow2 (k + 1) <= pow2 (ilog2 x)) by (apply pow2_le; lia). lra.
Qed.

Lemma ilog2_proper x y : 0 < x -> x == y -> ilog2 x = ilog2 y.
Proof.
  intros Hx E. destruct (ilog2_spec x Hx). symmetry. apply ilog2_unique; lra.
Qed.

Lemma round_half_even_spec y :
  y - (1 # 2) <= inject_Z (round_half_even y)
  /\ inject_Z (round_half_even y) <= y + (1 # 2).
Proof.
  unfold round_half_even.
  pose proof (Qfloor_le y). pose proof (Qlt_floor y) as Hlt.
  rewrite inject_Z_plus in Hlt. change (inject_Z 1) with 1 in Hlt.
  destruct (Qcompare_spec (y - inject_Z (Qfloor y)) (1 # 2)) as [E|E|E].
  - destruct (Z.even _); rewrite ?inject_Z_plus;
      change (inject_Z 1) with 1; lra.
  - lra.
  - rewrite inject_Z_plus. change (inject_Z 1) with 1. lra.
Qed.

Lemma round_half_even_proper x y :
  x == y -> round_half_even x = round_half_even y.
Proof.
  intros E. unfold round_half_even. rewrite (Qfloor_comp _ _ E).
  assert (E' : x - inject_Z (Qfloor y) == y - inject_Z (Qfloor y)) by lra.
  by rewrite (Qcompare_comp _ _ E' _ _ (Qeq_refl _)).
Qed.

Lemma round_half_even_Z y n : y == inject_Z n -> round_half_even y = n.
Proof.
  intros E. rewrite (round_half_even_proper _ _ E). unfold round_half_even.
  rewrite Qfloor_Z.
  assert (E' : inject_Z n - inject_Z n == 0) by lra.
  by rewrite (Qcompare_comp _ _ E' _ _ (Qeq_refl _)).
Qed.

Lemma round_half_even_nonneg y : 0 <= y -> (0 <= round_half_even y)%Z.
Proof.
  intros Hy. unfold round_half_even.
  assert (0 <= Qfloor y)%Z.
  { change 0%Z with (Qfloor 0). by apply Qfloor_resp_le. }
  destruct (Qcompare _ _); [destruct (Z.even _)|..]; lia.
Qed.

Lemma round_half_even_mono x y :
  x <= y -> (round_half_even x <= round_half_even y)%Z.
Proof.
  intros Hxy. pose proof (Qfloor_resp_le _ _ Hxy) as Hf.
  unfold round_half_even.
  pose proof (Qfloor_le x). pose proof (Qlt_floor x) as Hx.
  pose proof (Qfloor_le y). pose proof (Qlt_floor y) as Hy.
  rewrite inject_Z_plus in Hx, Hy. change (inject_Z 1) with 1 in Hx, Hy.
  destruct (Z.eq_dec (Qfloor x) (Qfloor y)) as [E|NE].
  - rewrite E in *.
    destruct (Qcompare_spec (x - inject_Z (Qfloor y)) (1 # 2));
      destruct (Qcompare_spec (y - inject_Z (Qfloor y)) (1 # 2));
      try destruct (Z.even _); try lia; lra.
  - assert (Qfloor x + 1 <= Qfloor y)%Z by lia.
    destruct (Qcompare _ _); destruct (Qcompare _ _);
      repeat destruct (Z.even _); lia.
Qed.


Lemma round_mag_proper s x y : x == y -> round_mag s x = round_mag s y.
Proof.
  intros E. unfold round_mag.
  assert (Hb : Qle_bool x 0 = Qle_bool y 0).
  { destruct (Qle_bool x 0) eqn:E1, (Qle_bool y 0) eqn:E2; try done.
    - apply Qle_bool_iff in E1.
      assert (H : y <= 0) by lra. apply Qle_bool_iff in H. congruence.
    - apply Qle_bool_iff in E2.
      assert (H : x <= 0) by lra. apply Qle_bool_iff in H. congruence. }
  rewrite <- Hb. destruct (Qle_bool x 0) eqn:E1; [done|].
  assert (Hx : 0 < x).
  { apply Qnot_le_lt. intros H. apply Qle_bool_iff in H. congruence. }
  unfold ulp_exp. rewrite <- (ilog2_proper x y Hx E).
  set (e := Z.max _ _).
  assert (E2 : x / pow2 e == y / pow2 e) by (by rewrite E).
  by rewrite (round_half_even_proper _ _ E2).
Qed.

Lemma round_mag_zero s x : x == 0 -> round_mag s x = Finite s 0 emin.
Proof. intros E. by rewrite (round_mag_proper s x 0 E). Qed.


(** The scaled value and its rounding, for [0 < x]. *)
Lemma round_mag_scaled x :
  0 < x ->
  let e := ulp_exp x in
  let m := round_half_even (x / pow2 e) in
  x - pow2 e * (1 # 2) <= inject_Z m * pow2 e
  /\ inject_Z m * pow2 e <= x + pow2 e * (1 # 2)
  /\ (0 <= m <= 2 ^ 53)%Z
  /\ pow2 e * (1 # 2) <= x * pow2 (-53) + pow2 (-1075).
Proof.
  intros Hx e m. pose proof (pow2_pos e) as He.
  pose proof (round_half_even_spec (x / pow2 e)) as [H1 H2]. fold m in H1, H2.
  assert (Ey : x / pow2 e * pow2 e == x) by (field; lra).
  destruct (ilog2_spec x Hx) as [L1 L2].
  assert (Hy : x / pow2 e < inject_Z (2 ^ 53)).
  { rewrite <- pow2_inject by lia. apply Qlt_shift_div_r; [done|].
    rewrite <- pow2_plus.
    eapply Qlt_le_trans; [exact L2|]. apply pow2_le. unfold e, ulp_exp. lia. }
  assert (Hm0 : (0 <= m)%Z).
  { apply round_half_even_nonneg. apply Qlt_le_weak, Qlt_shift_div_l; lra. }
  assert (Hm1 : (m <= 2 ^ 53)%Z).
  { change (2 ^ 53)%Z with (round_half_even (inject_Z (2 ^ 53))).
    apply round_half_even_mono. lra. }
  repeat split; try done; try nra.
  unfold e, ulp_exp.
  pose proof (pow2_pos (-53)). pose proof (pow2_pos (-1075)).
  destruct (Z.max_spec (ilog2 x - 52) emin) as [[_ ->]|[_ ->]].
  - change (pow2 emin * (1 # 2)) with (pow2 (-1074) * (1 # 2)).
    assert (pow2 (-1074) == 2 * pow2 (-1075)) by (by rewrite <- pow2_succ).
    nra.
  - assert (pow2 (ilog2 x - 52) * (1 # 2) == pow2 (ilog2 x) * pow2 (-53)).
    { replace (ilog2 x - 52)%Z with (ilog2 x + (-53) + 1)%Z by lia.
      rewrite pow2_succ, pow2_plus. lra. }
    nra.
Qed.

Lemma ilog2_upper x k : 0 < x -> x < pow2 k -> (ilog2 x < k)%Z.
Proof.
  intros Hx Hk. destruct (ilog2_spec x Hx) as [L1 L2].
  destruct (Z.lt_ge_cases (ilog2 x) k); [done|].
  assert (pow2 k <= pow2 (ilog2 x)) by (by apply pow2_le). lra.
Qed.

(** Below [2^1023] rounding gives a finite Number, within half a unit
    in the last place. *)
Lemma round_mag_error s x :
  0 <= x -> x < pow2 1023 ->
  exists m e,
    round_mag s x = Finite s m e
    /\ (0 <= m)%Z
    /\ x - (x * pow2 (-53) + pow2 (-1075)) <= inject_Z m * pow2 e
    /\ inject_Z m * pow2 e <= x + (x * pow2 (-53) + pow2 (-1075)).
Proof.
  intros H0 Hx. pose proof (pow2_pos (-53)). pose proof (pow2_pos (-1075)).
  unfold round_mag. destruct (Qle_bool x 0) eqn:E1.
  { apply Qle_bool_iff in E1. exists 0%Z, emin.
    assert (Ex : x == 0) by lra.
    split; [done|]. split; [done|]. change (inject_Z 0) with 0.
    rewrite Ex. split; lra. }
  assert (Hp : 0 < x).
  { apply Qnot_le_lt. intros H'. apply Qle_bool_iff in H'. congruence. }
  destruct (round_mag_scaled x Hp) as (R1 & R2 & R3 & R4).
  pose proof (ilog2_upper x 1023 Hp Hx) as Hl.
  set (e := ulp_exp x) in *. set (m := round_half_even (x / pow2 e)) in *.
  assert (He : (e <= 970)%Z) by (unfold e, ulp_exp, emin; lia).
  destruct (Z.eqb_spec m (2 ^ 53)) as [Em|Em].
  - destruct (Z.ltb_spec emax (e + 1)); [unfold emax in *; lia|].
    exists (2 ^ 52)%Z, (e + 1)%Z. split; [done|]. split; [done|].
    assert (inject_Z (2 ^ 52) * pow2 (e + 1) == inject_Z m * pow2 e).
    { rewrite Em, pow2_succ.
      change (inject_Z (2 ^ 53)) with (2 * inject_Z (2 ^ 52)). ring. }
    lra.
  - destruct (Z.ltb_spec emax e); [unfold emax in *; lia|].
    exists m, e. repeat split; try lia; lra.
Qed.

Lemma round_mag_small_exp s x m e :
  round_mag s x = Finite s m e -> x < pow2 51 -> (e < 0)%Z.
Proof.
  unfold round_mag. destruct (Qle_bool x 0) eqn:E1.
  { by intros [= <- <-]. }
  assert (Hp : 0 < x).
  { apply Qnot_le_lt. intros H'. apply Qle_bool_iff in H'. congruence. }
  intros Hr Hx. pose proof (ilog2_upper x 51 Hp Hx) as Hl.
  assert (He : (ulp_exp x <= -2)%Z) by (unfold ulp_exp, emin; lia).
  destruct (_ =? _)%Z; destruct (_ <? _)%Z; try done;
    injection Hr as <- <-; lia.
Qed.

(** Integers below [2^53] are Numbers. *)
Lemma round_mag_integer s x n :
  x == inject_Z n -> (0 <= n < 2 ^ 53)%Z ->
  exists m e,
    round_mag s x = Finite s m e /\ inject_Z m * pow2 e == inject_Z n.
Proof.
  intros E Hn. destruct (Z.eq_dec n 0) as [->|Hn0].
  { rewrite (round_mag_zero s x E). exists 0%Z, emin.
    split; [done|]. change (inject_Z 0) with 0. lra. }
  assert (Hp : 0 < x).
  { rewrite E. change 0 with (inject_Z 0). apply inject_Z_lt. lia. }
  assert (H1 : 1 <= x).
  { rewrite E. change 1 with (inject_Z 1). apply inject_Z_le. lia. }
  assert (H53 : x < pow2 53).
  { rewrite E, pow2_inject by lia. apply inject_Z_lt. lia. }
  pose proof (ilog2_upper x 53 Hp H53) as Hu.
  destruct (ilog2_spec x Hp) as [L1 L2].
  assert (Hl : (0 <= ilog2 x)%Z).
  { destruct (Z.lt_ge_cases (ilog2 x) 0); [|done].
    assert (pow2 (ilog2 x + 1) <= pow2 0) by (apply pow2_le; lia).
    change (pow2 0) with 1 in *. lra. }
  unfold round_mag. destruct (Qle_bool x 0) eqn:E1.
  { apply Qle_bool_iff in E1. lra. }
  assert (Ee : ulp_exp x = (ilog2 x - 52)%Z) by (unfold ulp_exp, emin; lia).
  rewrite Ee. set (k := (52 - ilog2 x)%Z).
  assert (Ek : pow2 (ilog2 x - 52) * inject_Z (2 ^ k) == 1).
  { rewrite <- pow2_inject by lia. rewrite <- pow2_plus.
    by replace (ilog2 x - 52 + k)%Z with 0%Z by lia. }
  pose proof (pow2_pos (ilog2 x - 52)).
  assert (Ey : x / pow2 (ilog2 x - 52) == inject_Z (n * 2 ^ k)).
  { rewrite inject_Z_mult. field_simplify_eq; [|lra]. nra. }
  rewrite (round_half_even_Z _ _ Ey).
  assert (Hlt : (n * 2 ^ k < 2 ^ 53)%Z).
  { rewrite Zlt_Qlt, <- Ey. apply Qlt_shift_div_r; [done|].
    assert (inject_Z (2 ^ 53) * pow2 (ilog2 x - 52) == pow2 (ilog2 x + 1)).
    { rewrite <- pow2_inject by lia. rewrite <- pow2_plus.
      by replace (53 + (ilog2 x - 52))%Z with (ilog2 x + 1)%Z by lia. }
    lra. }
  destruct (Z.eqb_spec (n * 2 ^ k) (2 ^ 53)); [lia|].
  destruct (Z.ltb_spec emax (ilog2 x - 52)); [unfold emax in *; lia|].
  eexists _, _. split; [done|]. rewrite inject_Z_mult. nra.
Qed.

End NumFacts.

(** ** Printing and reading decimals *)

Module DecimalFacts.

Import Num NumSpec.
Local Open Scope string_scope.
Local Open Scope Z_scope.

Lemma is_digit_cases d :
  is_digit d ->
  d = 0 \/ d = 1 \/ d = 2 \/ d = 3 \/ d = 4 \/ d = 5 \/ d = 6 \/ d = 7
  \/ d = 8 \/ d = 9.
Proof. unfold is_digit. lia. Qed.

Ltac digit_cases H :=
  apply is_digit_cases in H;
  repeat (destruct H as [->|H]); [..|subst].

Lemma char_digit_char d : is_digit d -> char_digit (digit_char d) = Some d.
Proof. intros H. digit_cases H; reflexivity. Qed.

Lemma digits_value_acc ds a :
  fold_left (fun acc d => 10 * acc + d) ds a
  = a * 10 ^ Z.of_nat (length ds) + digits_value ds.
Proof.
  unfold digits_value. revert a.
  induction ds as [|d ds IH]; intros a; cbn [fold_left length].
  - change (Z.of_nat 0) with 0. lia.
  - rewrite IH, (IH (10 * 0 + d)), Nat2Z.inj_succ, Z.pow_succ_r by lia. lia.
Qed.

Lemma digits_value_cons d ds :
  digits_value (d :: ds) = d * 10 ^ Z.of_nat (length ds) + digits_value ds.
Proof.
  unfold digits_value at 1. cbn [fold_left]. rewrite digits_value_acc. lia.
Qed.

Lemma digits_value_app ds ds' :
  digits_value (ds ++ ds')
  = digits_value ds * 10 ^ Z.of_nat (length ds') + digits_value ds'.
Proof.
  unfold digits_value at 1. rewrite fold_left_app.
  rewrite digits_value_acc. reflexivity.
Qed.

Lemma digits_value_zeroes k ds :
  digits_value (replicate k 0 ++ ds) = digits_value ds.
Proof.
  induction k as [|k IH]; [done|].
  cbn [replicate app]. rewrite digits_value_cons. lia.
Qed.

Lemma digits_value_bound ds :
  Forall is_digit ds -> 0 <= digits_value ds < 10 ^ Z.of_nat (length ds).
Proof.
  induction 1 as [|d ds Hd Hds IH].
  - by cbn.
  - rewrite digits_value_cons. cbn [length].
    rewrite Nat2Z.inj_succ, Z.pow_succ_r by lia.
    unfold is_digit in Hd. nia.
Qed.

(** [digits_loop] with enough fuel. *)
Lemma digits_loop_S fuel n acc :
  digits_loop (S fuel) n acc
  = if n <? 10 then n :: acc
    else digits_loop fuel (n / 10) (n mod 10 :: acc).
Proof. reflexivity. Qed.

Lemma digits_loop_spec fuel n acc :
  0 <= n < 10 ^ Z.of_nat (S fuel) -> Forall is_digit acc ->
  let ds := digits_loop (S fuel) n acc in
  Forall is_digit ds
  /\ digits_value ds = n * 10 ^ Z.of_nat (length acc) + digits_value acc
  /\ (length acc < length ds)%nat
  /\ (0 < n -> exists d ds', ds = d :: ds' /\ 0 < d).
Proof.
  revert n acc. induction fuel as [|fuel IH]; intros n acc Hn Hacc;
    rewrite digits_loop_S; destruct (Z.ltb_spec n 10) as [Hlt|Hge].
  1,3: cbn zeta; split; [constructor; [unfold is_digit; lia|done]|];
       split; [rewrite digits_value_cons; lia|];
       split; [cbn [length]; lia|]; intros Hpos; by exists n, acc.
  { change (10 ^ Z.of_nat 1) with 10 in Hn. lia. }
  rewrite Nat2Z.inj_succ, Z.pow_succ_r in Hn by lia.
  assert (Hq : 0 <= n / 10 < 10 ^ Z.of_nat (S fuel)).
  { split; [apply Z.div_pos; lia|].
    apply Z.div_lt_upper_bound; lia. }
  assert (Hr : Forall is_digit (n mod 10 :: acc)).
  { constructor; [|done]. unfold is_digit.
    pose proof (Z.mod_pos_bound n 10). lia. }
  destruct (IH (n / 10) (n mod 10 :: acc) Hq Hr) as (H1 & H2 & H3 & H4).
  cbn zeta. split; [done|]. split; [|split].
  - rewrite H2, digits_value_cons. cbn [length].
    rewrite Nat2Z.inj_succ, Z.pow_succ_r by lia.
    pose proof (Z.div_mod n 10). lia.
  - cbn [length] in H3. lia.
  - intros _. apply H4. apply Z.div_str_pos. lia.
Qed.

Lemma digits_of_spec n :
  0 <= n ->
  Forall is_digit (digits_of n)
  /\ digits_value (digits_of n) = n
  /\ (0 < length (digits_of n))%nat
  /\ (0 < n -> exists d ds', digits_of n = d :: ds' /\ 0 < d).
Proof.
  intros Hn. unfold digits_of.
  assert (Hf : 0 <= n < 10 ^ Z.of_nat (S (Z.to_nat (Z.log2 n)))).
  { split; [done|]. rewrite Nat2Z.inj_succ, Z2Nat.id by apply Z.log2_nonneg.
    destruct (Z.eq_dec n 0) as [->|]; [done|].
    destruct (Z.log2_spec n) as [_ H]; [lia|].
    eapply Z.lt_le_trans; [exact H|].
    apply Z.pow_le_mono_l. pose proof (Z.log2_nonneg n). lia. }
  destruct (digits_loop_spec _ n [] Hf) as (H1 & H2 & H3 & H4); [done|].
  split; [done|]. split; [|split; [|done]].
  - rewrite H2. cbn. lia.
  - cbn [length] in H3. lia.
Qed.

(** Reading back printed digits. *)
Lemma read_digits_string ds rest :
  Forall is_digit ds -> no_digit_ahead rest ->
  read_digits (string_of_digits ds ++ rest) = (ds, rest).
Proof.
  intros Hds Hrest. induction Hds as [|d ds Hd Hds IH].
  - change (read_digits rest = ([], rest)).
    destruct rest as [|c r]; [done|]. cbn [read_digits no_digit_ahead] in *.
    by rewrite Hrest.
  - change (read_digits (String (digit_char d) (string_of_digits ds ++ rest))
            = (d :: ds, rest)).
    cbn [read_digits]. rewrite (char_digit_char d Hd), IH. reflexivity.
Qed.

Lemma string_app_cons c (s t : string) : String c s ++ t = String c (s ++ t).
Proof. reflexivity. Qed.

Lemma string_app_nil (s : string) : s ++ "" = s.
Proof.
  induction s as [|c s IH]; [done|]. by rewrite string_app_cons, IH.
Qed.

Lemma read_digits_all ds :
  Forall is_digit ds -> read_digits (string_of_digits ds) = (ds, "").
Proof.
  intros H. rewrite <- (string_app_nil (string_of_digits ds)).
  by apply read_digits_string.
Qed.

(** What the parser does on a string that starts with a digit. *)
Lemma trim_start_digit d rest :
  is_digit d ->
  trim_start (String (digit_char d) rest) = String (digit_char d) rest.
Proof. intros H. digit_cases H; reflexivity. Qed.

Lemma read_sign_digit d rest :
  is_digit d ->
  read_sign (String (digit_char d) rest) = (false, String (digit_char d) rest).
Proof. intros H. digit_cases H; reflexivity. Qed.

Lemma prefix_Infinity_digit d rest :
  is_digit d -> String.prefix "Infinity" (String (digit_char d) rest) = false.
Proof. intros H. digit_cases H; reflexivity. Qed.


Lemma string_of_digits_app ds ds' :
  string_of_digits (ds ++ ds') = string_of_digits ds ++ string_of_digits ds'.
Proof.
  induction ds as [|d ds IH]; [done|].
  cbn [app string_of_digits]. by rewrite string_app_cons, IH.
Qed.


(** The unsigned part: digits, then a point and digits, then an
    exponent, each part optional as stated. *)
Lemma parse_unsigned_digits neg int (tail : string) :
  Forall is_digit int -> int <> [] -> no_digit_ahead tail ->
  parse_unsigned neg (string_of_digits int ++ tail)
  = let '(frac, r) :=
      match tail with
      | String "." r' => read_digits r'
      | _ => ([], tail)
      end in
    Some (LitDecimal neg (digits_value (int ++ frac))
            (read_exponent r - Z.of_nat (length frac))).
Proof.
  intros Hint Hne Htail. unfold parse_unsigned.
  destruct int as [|d int]; [done|].
  inversion Hint as [|? ? Hd Hint']; subst.
  change (string_of_digits (d :: int) ++ tail)
    with (String (digit_char d) (string_of_digits int ++ tail)) at 1.
  rewrite (prefix_Infinity_digit d _ Hd).
  change (String (digit_char d) (string_of_digits int ++ tail))
    with (string_of_digits (d :: int) ++ tail).
  rewrite (read_digits_string _ _ Hint Htail).
  destruct (match tail with
            | String "." r' => read_digits r'
            | _ => ([], tail)
            end) as [frac r].
  reflexivity.
Qed.

Lemma parse_unsigned_integer neg int :
  Forall is_digit int -> int <> [] ->
  parse_unsigned neg (string_of_digits int)
  = Some (LitDecimal neg (digits_value int) 0).
Proof.
  intros Hint Hne. rewrite <- (string_app_nil (string_of_digits int)).
  rewrite (parse_unsigned_digits neg int "" Hint Hne I).
  by rewrite app_nil_r.
Qed.

Lemma parse_unsigned_fraction neg int frac :
  Forall is_digit int -> int <> [] -> Forall is_digit frac ->
  parse_unsigned neg (string_of_digits int ++ "." ++ string_of_digits frac)
  = Some (LitDecimal neg (digits_value (int ++ frac))
            (- Z.of_nat (length frac))).
Proof.
  intros Hint Hne Hfrac.
  rewrite (parse_unsigned_digits neg int _ Hint Hne); [|done].
  change ("." ++ string_of_digits frac)
    with (String "." (string_of_digits frac)).
  cbv beta iota. rewrite (read_digits_all _ Hfrac). reflexivity.
Qed.



(** [fixed_string] reads back as [n / 10^f]. *)
Lemma fixed_string_parse neg n f :
  0 <= n ->
  parse_unsigned neg (fixed_string n f)
  = Some (LitDecimal neg n (- Z.of_nat f)).
Proof.
  intros Hn. destruct (digits_of_spec n Hn) as (Hd & Hv & Hl & _).
  unfold fixed_string.
  set (m := (replicate (S f - length (digits_of n)) 0 ++ digits_of n)%list).
  assert (Hm : Forall is_digit m).
  { apply Forall_app. split; [|done].
    apply Forall_replicate. unfold is_digit. lia. }
  assert (Hmv : digits_value m = n) by (unfold m; by rewrite digits_value_zeroes).
  assert (Hml : (S f <= length m)%nat).
  { unfold m. rewrite length_app, length_replicate. lia. }
  destruct f as [|f].
  - rewrite parse_unsigned_integer; [by rewrite Hmv|done|].
    destruct m; [cbn in Hml; lia|done].
  - rewrite parse_unsigned_fraction.
    + rewrite take_drop, Hmv, length_drop. do 2 f_equal. lia.
    + by apply Forall_take.
    + intros E. apply (f_equal length) in E.
      rewrite length_take in E. cbn [length] in E. lia.
    + by apply Forall_drop.
Qed.

Lemma fixed_string_head n f :
  0 <= n -> exists d rest, is_digit d /\ fixed_string n f = String (digit_char d) rest.
Proof.
  intros Hn. destruct (digits_of_spec n Hn) as (Hd & Hv & Hl & _).
  unfold fixed_string.
  set (m := (replicate (S f - length (digits_of n)) 0 ++ digits_of n)%list).
  assert (Hm : Forall is_digit m).
  { apply Forall_app. split; [|done].
    apply Forall_replicate. unfold is_digit. lia. }
  assert (Hml : (S f <= length m)%nat).
  { unfold m. rewrite length_app, length_replicate. lia. }
  destruct m as [|d m']; [cbn in Hml; lia|].
  inversion Hm; subst.
  destruct f as [|f]; [by exists d, (string_of_digits m')|].
  exists d. cbn [length] in *.
  replace (S (length m') - S f)%nat with (S (length m' - S f))%nat by lia.
  cbn [take string_of_digits]. rewrite string_app_cons. by eexists.
Qed.

Lemma parse_literal_digit_head neg (s : string) d rest :
  is_digit d -> s = String (digit_char d) rest ->
  parse_literal ((if neg : bool then "-" else "") ++ s) = parse_unsigned neg s.
Proof.
  intros Hd ->. unfold parse_literal. destruct neg.
  - reflexivity.
  - change ("" ++ String (digit_char d) rest) with (String (digit_char d) rest).
    by rewrite trim_start_digit, read_sign_digit.
Qed.

Lemma decimal_value_fixed neg n f :
  0 <= n ->
  decimal_value ((if neg : bool then "-" else "") ++ fixed_string n f)
  = Some (if neg then (- (inject_Z n * 10 ^ (- Z.of_nat f)))%Q
          else (inject_Z n * 10 ^ (- Z.of_nat f))%Q).
Proof.
  intros Hn. unfold decimal_value.
  destruct (fixed_string_head n f Hn) as (d & rest & Hd & E).
  rewrite (parse_literal_digit_head neg _ d rest Hd E).
  by rewrite fixed_string_parse.
Qed.

End DecimalFacts.

(** ** [toFixed] *)

Module ToFixedFacts.

Import Num NumSpec NumFacts DecimalFacts.
Local Open Scope string_scope.
Local Open Scope Z_scope.

Lemma mag_nonneg s m e : 0 <= m -> (0 <= mag (Finite s m e))%Q.
Proof.
  intros Hm. cbn [mag]. pose proof (pow2_pos e).
  apply inject_Z_le in Hm. change (inject_Z 0) with 0%Q in Hm. nra.
Qed.

Lemma Qfloor_nonneg x : (0 <= x)%Q -> 0 <= Qfloor x.
Proof. intros H. change 0 with (Qfloor 0). by apply Qfloor_resp_le. Qed.



Lemma fixed_digits_nonneg x f : (0 <= x)%Q -> 0 <= fixed_digits x f.
Proof.
  intros Hx. unfold fixed_digits. apply Qfloor_nonneg.
  assert (0 < inject_Z (10 ^ Z.of_nat f))%Q.
  { change 0%Q with (inject_Z 0). apply inject_Z_lt. lia. }
  nra.
Qed.

(** Below [10^21], [toFixed] prints the nearest multiple of [10^-f]. *)
Lemma toFixed_below m e f :
  0 <= m -> Qle_bool (inject_Z (10 ^ 21)) (mag (Finite false m e)) = false ->
  toFixed (Finite false m e) f
  = fixed_string (fixed_digits (mag (Finite false m e)) f) f
  /\ decimal_value (toFixed (Finite false m e) f)
     = Some (inject_Z (fixed_digits (mag (Finite false m e)) f)
             * 10 ^ (- Z.of_nat f))%Q.
Proof.
  intros Hm Hb.
  assert (E : toFixed (Finite false m e) f
              = fixed_string (fixed_digits (mag (Finite false m e)) f) f).
  { unfold toFixed. by rewrite Hb. }
  split; [done|]. rewrite E.
  apply (decimal_value_fixed false).
  apply fixed_digits_nonneg. by apply mag_nonneg.
Qed.











End ToFixedFacts.

(** ** The limit price: the table and the tick *)

Module QuantizerFacts.

Import Num NumSpec NumFacts DecimalFacts ToFixedFacts Quantizer Scenarios.
Local Open Scope string_scope.
Local Open Scope Z_scope.











Lemma exact_tick_pow sd :
  (exact_tick sd == 10 ^ (- Z.of_nat (fractionDigits sd)))%Q.
Proof.
  unfold exact_tick, fractionDigits.
  destruct (Z.leb_spec 5 sd); [done|].
  destruct (Z.eqb_spec sd 4) as [->|]; [done|].
  destruct (Z.eqb_spec sd 3) as [->|]; [done|].
  destruct (Z.leb_spec 4 sd); [lia|].
  destruct (Z.leb_spec 3 sd); [lia|]. done.
Qed.




End QuantizerFacts.

(** ** The limit price: rounding errors *)

Module RoundingFacts.

Import Num NumSpec NumFacts DecimalFacts ToFixedFacts Quantizer Scenarios.
Import QuantizerFacts.
Local Open Scope string_scope.
Local Open Scope Q_scope.



Lemma pow2_m53 : pow2 (-53) == 1 # 9007199254740992.
Proof. reflexivity. Qed.

Lemma pow2_m1075 : pow2 (-1075) <= 1 # 10 ^ 300.
Proof. by vm_compute. Qed.

Lemma pow2_51 : pow2 51 == 2251799813685248.
Proof. reflexivity. Qed.

Lemma pow2_1023_big : 10 ^ 300 <= pow2 1023.
Proof. by vm_compute. Qed.

Lemma mag_lit_1 : mag lit_1 == 1.
Proof. reflexivity. Qed.
Lemma mag_lit_0_1 : mag lit_0_1 == 7205759403792794 # 72057594037927936.
Proof. reflexivity. Qed.
Lemma mag_lit_0_01 : mag lit_0_01 == 5764607523034235 # 576460752303423488.
Proof. reflexivity. Qed.
Lemma mag_lit_0_001 : mag lit_0_001 == 4611686018427388 # 4611686018427387904.
Proof. reflexivity. Qed.
Lemma mag_lit_1_002 : mag lit_1_002 == 4512606826625237 # 4503599627370496.
Proof. reflexivity. Qed.
Lemma mag_lit_0_998 : mag lit_0_998 == 8989184856231510 # 9007199254740992.
Proof. reflexivity. Qed.

Lemma Qfloor_bounds x : inject_Z (Qfloor x) <= x /\ x < inject_Z (Qfloor x) + 1.
Proof.
  split; [apply Qfloor_le|]. pose proof (Qlt_floor x) as H.
  by rewrite inject_Z_plus in H.
Qed.

Lemma Qfloor_unique x (n : Z) :
  inject_Z n <= x -> x < inject_Z n + 1 -> Qfloor x = n.
Proof.
  intros H1 H2. destruct (Qfloor_bounds x) as [H3 H4].
  assert (inject_Z (Qfloor x) < inject_Z (n + 1)).
  { rewrite inject_Z_plus. change (inject_Z 1) with 1. lra. }
  assert (inject_Z n < inject_Z (Qfloor x + 1)).
  { rewrite inject_Z_plus. change (inject_Z 1) with 1. lra. }
  rewrite <- Zlt_Qlt in *. lia.
Qed.

(** [Math.round] of a small non-negative Number is the Number of the
    integer [floor (x + 1/2)]. *)
Lemma Math_round_small m e :
  (0 <= m)%Z -> (e < 0)%Z -> mag (Finite false m e) < pow2 51 ->
  let K := Qfloor (mag (Finite false m e) + (1 # 2)) in
  (0 <= K)%Z
  /\ Math_round (Finite false m e) = round_mag false (inject_Z K)
  /\ exists mk ek,
       round_mag false (inject_Z K) = Finite false mk ek
       /\ mag (Finite false mk ek) == inject_Z K.
Proof.
  intros Hm He Hx K. pose proof (mag_nonneg false m e Hm) as H0.
  assert (HK : (0 <= K)%Z) by (apply Qfloor_nonneg; lra).
  destruct (Qfloor_bounds (mag (Finite false m e) + (1 # 2))) as [F1 F2].
  fold K in F1, F2. rewrite pow2_51 in Hx.
  assert (HK53 : (K < 2 ^ 53)%Z).
  { rewrite Zlt_Qlt.
    change (inject_Z (2 ^ 53)) with (9007199254740992 # 1).
    clearbody K. lra. }
  split; [done|]. split.
  - cbn [Math_round]. destruct (Z.leb_spec 0 e); [lia|]. cbv zeta.
    fold K. destruct (Z.eqb_spec K 0) as [->|Hn].
    + by rewrite round_mag_zero.
    + destruct (Z.ltb_spec K 0); [lia|]. by rewrite Z.abs_eq.
  - destruct (round_mag_integer false (inject_Z K) K) as (mk & ek & E1 & E2);
      [reflexivity|lia|].
    by exists mk, ek.
Qed.


Lemma tick_cases sd :
  (tickSize sd = lit_1 /\ fractionDigits sd = 0%nat)
  \/ (tickSize sd = lit_0_1 /\ fractionDigits sd = 1%nat)
  \/ (tickSize sd = lit_0_01 /\ fractionDigits sd = 2%nat)
  \/ (tickSize sd = lit_0_001 /\ fractionDigits sd = 3%nat).
Proof.
  unfold tickSize, fractionDigits.
  repeat match goal with |- context [if ?b then _ else _] => destruct b end;
    tauto.
Qed.

Lemma Qle_bool_false x y : y < x -> Qle_bool x y = false.
Proof.
  intros H. destruct (Qle_bool x y) eqn:E; [|done].
  apply Qle_bool_iff in E. lra.
Qed.



(** The analysis of one row of the table: [t] is the tick, [Ht] its
    magnitude as a literal, [f] the decimals, [T] is [10^f]. *)
Ltac round_to_tick m e Hm t Ht f T :=
  pose proof (mag_nonneg false m e Hm) as H0;
  set (x := Finite false m e) in *;
  set (a := mag x / mag t);
  assert (Ha : a * mag t == mag x) by (unfold a; field; rewrite Ht; lra);
  rewrite Ht in Ha;
  assert (Ha0 : 0 <= a) by lra;
  assert (Ha1 : a < pow2 51) by (rewrite pow2_51; lra);
  assert (Ha2 : a < pow2 1023)
    by (pose proof pow2_1023_big; rewrite pow2_51 in Ha1;
        assert (2251799813685248 <= 10 ^ 300) by (by vm_compute); lra);
  destruct (round_mag_error false a Ha0 Ha2)
    as (mq & eq & Eq & Hmq & Q1 & Q2);
  pose proof (round_mag_small_exp false a mq eq Eq Ha1) as Heq;
  pose proof pow2_m53 as Hu; pose proof pow2_m1075 as Htiny;
  pose proof (pow2_pos (-1075)) as Htiny0;
  assert (Htiny1 : (1 # 10 ^ 300) <= 1 # 1000000) by (by vm_compute);
  assert (Hq51 : mag (Finite false mq eq) < pow2 51)
    by (rewrite pow2_51 in *; rewrite Hu in Q2; cbn [mag]; clearbody a; lra);
  exists mq, eq;
  split; [exact Eq|]; split; [exact Hmq|]; split; [exact Heq|];
  split; [exact Q1|]; split; [exact Q2|]; split; [exact Hq51|];
  rewrite Hu in Q1, Q2; rewrite pow2_51 in Ha1;
  destruct (Math_round_small mq eq Hmq Heq Hq51)
    as (HK & ER & mk & ek & EK & HKv);
  set (K := Qfloor (mag (Finite false mq eq) + (1 # 2))) in *;
  destruct (Qfloor_bounds (mag (Finite false mq eq) + (1 # 2))) as [F1 F2];
  fold K in F1, F2; cbn [mag] in F1, F2, HKv, Hq51;
  assert (HK0 : 0 <= inject_Z K)
    by (change 0 with (inject_Z 0); by apply inject_Z_le);
  set (b := mag (Finite false mk ek) * mag t);
  assert (Hb : b == inject_Z K * mag t)
    by (unfold b; cbn [mag]; by rewrite HKv);
  rewrite Ht in Hb;
  assert (Hb0 : 0 <= b) by (rewrite Hb; clearbody K; nra);
  assert (Hb2 : b < pow2 1023)
    by (pose proof pow2_1023_big; rewrite pow2_51 in *;
        assert (2251799813685248 <= 10 ^ 300) by (by vm_compute);
        clearbody K b a; lra);
  destruct (round_mag_error false b Hb0 Hb2)
    as (mz & ez & Ez & Hmz & Z1 & Z2);
  rewrite Hu in Z1, Z2;
  assert (Hz21 : Qle_bool (inject_Z (10 ^ 21)) (mag (Finite false mz ez))
                 = false)
    by (apply Qle_bool_false; cbn [mag];
        change (inject_Z (10 ^ 21)) with (1000000000000000000000 # 1);
        clearbody K b a; lra);
  destruct (toFixed_below mz ez f Hmz Hz21) as [T1 _];
  assert (EK' : fixed_digits (mag (Finite false mz ez)) f = K)
    by (unfold fixed_digits;
        change (inject_Z (10 ^ Z.of_nat f)) with (T : Q); cbn [mag];
        apply Qfloor_unique; clearbody K b a; lra);
  unfold roundToTick;
  change (tickSize _) with t; change (fractionDigits _) with f;
  change (div x t) with (round_mag false a);
  rewrite Eq, ER, EK;
  change (mul (Finite false mk ek) t) with (round_mag false b);
  by rewrite Ez, T1, EK'.

(** Rounding a price of at most [11 * 10^11] to the tick prints
    [floor (q + 1/2)] with the decimals of the tick, where [q] is the
    Number of the quotient of the price by the tick, a non-negative
    Number below [2^51] with a negative exponent. *)
Lemma roundToTick_spec m e sd :
  (0 <= m)%Z -> mag (Finite false m e) <= 1100000000000 ->
  exists mq eq,
    div (Finite false m e) (tickSize sd) = Finite false mq eq
    /\ (0 <= mq)%Z /\ (eq < 0)%Z
    /\ mag (Finite false m e) / mag (tickSize sd)
       - (mag (Finite false m e) / mag (tickSize sd) * pow2 (-53)
          + pow2 (-1075))
       <= mag (Finite false mq eq)
    /\ mag (Finite false mq eq)
       <= mag (Finite false m e) / mag (tickSize sd)
          + (mag (Finite false m e) / mag (tickSize sd) * pow2 (-53)
             + pow2 (-1075))
    /\ mag (Finite false mq eq) < pow2 51
    /\ roundToTick (Finite false m e) sd
       = fixed_string (Qfloor (mag (Finite false mq eq) + (1 # 2)))
           (fractionDigits sd).
Proof.
  intros Hm Hx. unfold roundToTick.
  destruct (tick_cases sd) as [[-> ->]|[[-> ->]|[[-> ->]|[-> ->]]]].
  - change (toFixed (mul (Math_round (div (Finite false m e) lit_1)) lit_1) 0)
      with (roundToTick (Finite false m e) 5).
    round_to_tick m e Hm lit_1 mag_lit_1 0%nat 1.
  - change (toFixed (mul (Math_round (div (Finite false m e) lit_0_1)) lit_0_1) 1)
      with (roundToTick (Finite false m e) 4).
    round_to_tick m e Hm lit_0_1 mag_lit_0_1 1%nat 10.
  - change (toFixed (mul (Math_round (div (Finite false m e) lit_0_01)) lit_0_01) 2)
      with (roundToTick (Finite false m e) 3).
    round_to_tick m e Hm lit_0_01 mag_lit_0_01 2%nat 100.
  - change (toFixed (mul (Math_round (div (Finite false m e) lit_0_001)) lit_0_001) 3)
      with (roundToTick (Finite false m e) 2).
    round_to_tick m e Hm lit_0_001 mag_lit_0_001 3%nat 1000.
Qed.


Lemma parseFloat_fixed K f :
  (0 <= K)%Z ->
  parseFloat (fixed_string K f)
  = round_mag false (inject_Z K * 10 ^ (- Z.of_nat f)).
Proof.
  intros HK. unfold parseFloat.
  destruct (fixed_string_head K f HK) as (d & rest & Hd & E).
  assert (Hp : parse_literal (fixed_string K f)
               = parse_unsigned false (fixed_string K f))
    by exact (parse_literal_digit_head false _ d rest Hd E).
  by rewrite Hp, fixed_string_parse.
Qed.

(** The slippage adjustment of a price of at most [10^12]. *)
Lemma adjusted_price m e side :
  (0 <= m)%Z -> mag (Finite false m e) <= 1000000000000 ->
  exists mx ex,
    mul (Finite false m e) (priceAdjustment side) = Finite false mx ex
    /\ (0 <= mx)%Z
    /\ mag (Finite false m e) * mag (priceAdjustment side)
       - (mag (Finite false m e) * mag (priceAdjustment side) * pow2 (-53)
          + pow2 (-1075))
       <= mag (Finite false mx ex)
    /\ mag (Finite false mx ex)
       <= mag (Finite false m e) * mag (priceAdjustment side)
          + (mag (Finite false m e) * mag (priceAdjustment side) * pow2 (-53)
             + pow2 (-1075))
    /\ mag (Finite false mx ex) <= 1010000000000.
Proof.
  intros Hm Hx. pose proof (mag_nonneg false m e Hm) as H0.
  set (p := mag (Finite false m e)) in *.
  set (c := mag (priceAdjustment side)).
  assert (Hc : 0 <= c /\ c <= 1003 # 1000).
  { unfold c. destruct side; cbn [priceAdjustment];
      [rewrite mag_lit_1_002|rewrite mag_lit_0_998]; lra. }
  assert (Hpc0 : 0 <= p * c) by nra.
  assert (Hpc1 : p * c <= 1003000000000) by nra.
  assert (Hpc2 : p * c < pow2 1023).
  { pose proof pow2_1023_big.
    assert (1003000000000 < 10 ^ 300) by (by vm_compute). lra. }
  destruct (round_mag_error false (p * c) Hpc0 Hpc2)
    as (mx & ex & Ex & Hmx & X1 & X2).
  exists mx, ex. split.
  { destruct side; exact Ex. }
  split; [done|]. split; [done|]. split; [done|].
  pose proof pow2_m53 as Hu. pose proof pow2_m1075 as Htiny.
  assert (Htiny1 : (1 # 10 ^ 300) <= 1 # 1000000) by (by vm_compute).
  rewrite Hu in X2. cbn [mag].
  set (pc := p * c) in *. clearbody pc. lra.
Qed.


(** The quotient [a] of a magnitude by a tick of the table. *)
Ltac tick_quotient a x t Ht :=
  let Ha := fresh "Ha" in
  assert (Ha : a * mag t == x) by (unfold a; field; rewrite Ht; lra);
  rewrite Ht in Ha.

Ltac fixpoint_row t Ht f T :=
  match goal with
  | Hm : (0 <= ?m)%Z, Hx : mag (Finite false ?m ?e) <= _,
    Q1 : _ <= mag (Finite false ?mq ?eq),
    Q2 : mag (Finite false ?mq ?eq) <= _,
    Q1' : _ <= mag (Finite false ?mq' ?eq'),
    Q2' : mag (Finite false ?mq' ?eq') <= _,
    X1 : _ <= inject_Z ?m' * pow2 ?e',
    X2 : inject_Z ?m' * pow2 ?e' <= _ |- _ =>
      pose proof (mag_nonneg false m e Hm);
      pose proof pow2_m53 as Hu; pose proof pow2_m1075;
      pose proof (pow2_pos (-1075));
      assert ((1 # 10 ^ 300) <= 1 # 1000000) by (by vm_compute);
      cbn [mag] in *;
      set (x := inject_Z m * pow2 e) in *;
      set (a := x / mag t) in *;
      tick_quotient a x t Ht;
      set (x' := inject_Z m' * pow2 e') in *;
      set (a' := x' / mag t) in *;
      tick_quotient a' x' t Ht;
      change (10 ^ (- Z.of_nat f)) with (1 # T) in *;
      rewrite Hu in *
  end.

(** C6 at the level of the rounding: a price of at most [101 * 10^10],
    rounded to the tick and read back, rounds to the same string. *)
Lemma roundToTick_fixpoint m e sd :
  (0 <= m)%Z -> mag (Finite false m e) <= 1010000000000 ->
  roundToTick (parseFloat (roundToTick (Finite false m e) sd)) sd
  = roundToTick (Finite false m e) sd.
Proof.
  intros Hm Hx.
  destruct (roundToTick_spec m e sd Hm) as
    (mq & eq & Eq & Hmq & Heq & Q1 & Q2 & Hq51 & ->); [lra|].
  set (K := Qfloor (mag (Finite false mq eq) + (1 # 2))).
  assert (HK : (0 <= K)%Z).
  { apply Qfloor_nonneg. pose proof (mag_nonneg false mq eq Hmq). lra. }
  destruct (Qfloor_bounds (mag (Finite false mq eq) + (1 # 2))) as [F1 F2].
  fold K in F1, F2.
  rewrite (parseFloat_fixed K _ HK).
  set (y := inject_Z K * 10 ^ (- Z.of_nat (fractionDigits sd))).
  assert (HK0 : 0 <= inject_Z K).
  { change 0 with (inject_Z 0). by apply inject_Z_le. }
  assert (Hy : 0 <= y /\ y <= 1050000000000 /\ y < pow2 1023).
  { pose proof pow2_1023_big.
    assert (1050000000000 < 10 ^ 300) by (by vm_compute).
    pose proof pow2_m53 as Hu. pose proof pow2_m1075 as Htiny.
    assert (Htiny1 : (1 # 10 ^ 300) <= 1 # 1000000) by (by vm_compute).
    pose proof (mag_nonneg false m e Hm) as Hx0.
    unfold y. rewrite Hu in *. cbn [mag] in *.
    set (x := inject_Z m * pow2 e) in *.
    destruct (tick_cases sd) as [[Et ->]|[[Et ->]|[[Et ->]|[Et ->]]]];
      rewrite Et in *; set (a := x / _) in *.
    - tick_quotient a x lit_1 mag_lit_1.
      change (10 ^ (- Z.of_nat 0)) with 1. clearbody K a x. lra.
    - tick_quotient a x lit_0_1 mag_lit_0_1.
      change (10 ^ (- Z.of_nat 1)) with (1 # 10). clearbody K a x. lra.
    - tick_quotient a x lit_0_01 mag_lit_0_01.
      change (10 ^ (- Z.of_nat 2)) with (1 # 100). clearbody K a x. lra.
    - tick_quotient a x lit_0_001 mag_lit_0_001.
      change (10 ^ (- Z.of_nat 3)) with (1 # 1000). clearbody K a x. lra. }
  destruct Hy as (Hy0 & Hy1 & Hy2).
  destruct (round_mag_error false y Hy0 Hy2) as (m' & e' & E' & Hm' & X1 & X2).
  rewrite E'.
  assert (Hx' : mag (Finite false m' e') <= 1100000000000).
  { pose proof pow2_m53 as Hu. pose proof pow2_m1075 as Htiny.
    assert (Htiny1 : (1 # 10 ^ 300) <= 1 # 1000000) by (by vm_compute).
    rewrite Hu in X2. cbn [mag]. clearbody y. lra. }
  destruct (roundToTick_spec m' e' sd Hm' Hx') as
    (mq' & eq' & Eq' & Hmq' & Heq' & Q1' & Q2' & Hq51' & ->).
  f_equal. fold K. unfold y in *.
  destruct (tick_cases sd) as [[Et Ef]|[[Et Ef]|[[Et Ef]|[Et Ef]]]];
    rewrite Et, Ef in *.
  - fixpoint_row lit_1 mag_lit_1 0%nat 1%positive.
    apply Qfloor_unique; clearbody K a x a' x'; lra.
  - fixpoint_row lit_0_1 mag_lit_0_1 1%nat 10%positive.
    apply Qfloor_unique; clearbody K a x a' x'; lra.
  - fixpoint_row lit_0_01 mag_lit_0_01 2%nat 100%positive.
    apply Qfloor_unique; clearbody K a x a' x'; lra.
  - fixpoint_row lit_0_001 mag_lit_0_001 3%nat 1000%positive.
    apply Qfloor_unique; clearbody K a x a' x'; lra.
Qed.


(** C6 (amended): for every positive raw price of at most [10^12],
    the limit price read back as a Number and rounded to the tick
    again (the tick rounding alone, without a second slippage
    adjustment) is the same limit price. *)
Theorem roundToTick_limitPrice_idempotent price side sd :
  positive price -> mag price <= 1000000000000 ->
  roundToTick (parseFloat (limitPrice price side sd)) sd
  = limitPrice price side sd.
Proof.
  intros Hp Hx. destruct price as [| |[|] m e]; try done.
  cbn [positive] in Hp. unfold limitPrice.
  destruct (adjusted_price m e side) as (mx & ex & -> & Hmx & _ & _ & Hb);
    [lia|done|].
  by apply roundToTick_fixpoint.
Qed.

Ltac bracket_row m e Hm mx ex t Ht f T :=
  pose proof (mag_nonneg false m e Hm);
  pose proof pow2_m53 as Hu; pose proof pow2_m1075;
  pose proof (pow2_pos (-1075));
  assert ((1 # 10 ^ 300) <= 1 # 1000000) by (by vm_compute);
  cbn [mag] in *;
  set (p := inject_Z m * pow2 e) in *;
  set (x := inject_Z mx * pow2 ex) in *;
  set (a := x / mag t) in *;
  tick_quotient a x t Ht;
  change (10 ^ (- Z.of_nat f)) with (1 # T) in *;
  rewrite Hu in *.





Lemma roundToTick_idempotent_witness :
  roundToTick (parseFloat (limitPrice price_50000 Buy 5)) 5
  = limitPrice price_50000 Buy 5.
Proof.
  apply (roundToTick_limitPrice_idempotent price_50000 Buy 5); by vm_compute.
Defined.

(** C6, as stated, fails: the quantizer applies the slippage
    adjustment again, so a second application to 50100 gives 50200. *)
Lemma second_application_moves :
  positive price_50000
  /\ limitPrice price_50000 Buy 5 = "50100"
  /\ limitPrice (parseFloat (limitPrice price_50000 Buy 5)) Buy 5 = "50200"
  /\ limitPrice (parseFloat (limitPrice price_50000 Buy 5)) Buy 5
     <> limitPrice price_50000 Buy 5.
Proof. by vm_compute. Qed.

End RoundingFacts.

(** ** The quote-stripping replace *)

Module RegexFacts.

Import Regex Scenarios.
Local Open Scope string_scope.

Lemma replace_scan_inner s :
  replace_scan false s = drop_trailing_quote s.
Proof.
  unfold drop_trailing_quote.
  induction s as [|c rest IH]; [done|].
  cbn [replace_scan ends_with_quote drop_last]. rewrite IH.
  destruct rest as [|c' rest']; cbn [is_empty].
  - rewrite andb_true_r. by destruct (Ascii.eqb c quote).
  - rewrite andb_false_r. cbn [orb andb].
    by destruct (ends_with_quote (String c' rest')).
Qed.

(** C9 (amended): the value read is the raw string without its
    leading quote, if it has one, and without its trailing quote, if
    it has one, each on its own: a quote at one end only is removed
    as well. *)
Theorem strip_quotes_each_end s :
  strip_quotes s = drop_trailing_quote (drop_leading_quote s).
Proof.
  unfold strip_quotes, drop_leading_quote.
  destruct s as [|c rest]; [done|].
  cbn [replace_scan starts_with_quote drop_first orb]. rewrite andb_true_r.
  destruct (Ascii.eqb c quote) eqn:Hc.
  - apply replace_scan_inner.
  - rewrite <- replace_scan_inner. cbn [replace_scan]. by rewrite Hc.
Qed.

(** With an enclosing pair the two readings agree, and so they do
    without a quote at either end. *)
Lemma strip_quotes_enclosed s :
  starts_with_quote s = true -> ends_with_quote (drop_first s) = true ->
  strip_quotes s = strip_enclosing s.
Proof.
  intros Hs He.
  assert (H : strip_quotes s = drop_trailing_quote (drop_leading_quote s)).
  { unfold strip_quotes, drop_leading_quote.
    destruct s as [|c rest]; [done|].
    cbn [replace_scan starts_with_quote drop_first orb]. rewrite andb_true_r.
    destruct (Ascii.eqb c quote) eqn:Hc.
    - apply replace_scan_inner.
    - rewrite <- replace_scan_inner. cbn [replace_scan]. by rewrite Hc. }
  rewrite H. unfold drop_leading_quote, strip_enclosing.
  rewrite Hs, He. cbn [andb]. unfold drop_trailing_quote. by rewrite He.
Qed.

(** C9, as stated, fails: a quote at one end only is stripped, where
    "one layer of enclosing quotes" leaves the string as it is. *)
Lemma strip_quotes_lone_quote :
  strip_quotes lone_leading = "abc"
  /\ strip_enclosing lone_leading = lone_leading
  /\ strip_quotes lone_leading <> strip_enclosing lone_leading
  /\ strip_quotes lone_trailing = "abc"
  /\ strip_quotes lone_trailing <> strip_enclosing lone_trailing.
Proof. repeat split; try reflexivity; discriminate. Qed.

End RegexFacts.

(** ** [run]: results, the best-effort steps, classification *)

Module TradeFacts.

Import Js Json Trade TradeSpec Scenarios.
Local Open Scope string_scope.

Section Monad.
Context {A B : Type}.

Lemma bind_unfold (m : M A) (k : A -> M B) h :
  (m ≫= k) h = match m h with
               | (Normal a, h') => k a h'
               | (Return r, h') => (Return r, h')
               | (Throw e, h') => (Throw e, h')
               end.
Proof. reflexivity. Qed.

Lemma bind_call_ok ev (answer : list event -> outcome A) (k : A -> M B) h a :
  answer (ev :: h) = Ok a -> (call ev answer ≫= k) h = k a (ev :: h).
Proof. intros H. rewrite bind_unfold. unfold call. by rewrite H. Qed.


Lemma bind_ret (a : A) (k : A -> M B) h : (mret a ≫= k) h = k a h.
Proof. reflexivity. Qed.

End Monad.











Section Run.
Variable env : Env.
Variable w : World.





Lemma never_normal_bind {A B} (m : M A) (k : A -> M B) :
  (forall a, never_normal (k a)) -> never_normal (m ≫= k).
Proof.
  intros Hk h b h'. rewrite bind_unfold.
  destruct (m h) as [[a|r|e] h1]; [apply Hk|discriminate..].
Qed.

Lemma never_normal_run_body args ws : never_normal (run_body env w args ws).
Proof.
  unfold run_body. apply never_normal_bind. intros [pk vault].
  unfold trade_as. do 2 (apply never_normal_bind; intros ?).
  unfold trade. do 2 (apply never_normal_bind; intros ?).
  unfold classify. apply never_normal_bind. intros ?.
  apply never_normal_bind. intros ?. done.
Qed.


End Run.



Lemma classify_total args r h :
  exists o, classify args r h = (outcome_completion args o, h).
Proof.
  unfold classify. rewrite !bind_unfold.
  destruct (first_status r) as [st|e]; cbn [lift];
    [|by exists (Crashed e)].
  cbn [mret M_ret ret]. destruct (truthy st); [|by exists (Malformed r)].
  rewrite !bind_unfold.
  destruct (has_property "filled" st) as [[|]|e]; cbn [lift mret M_ret ret];
    [| |by exists (Crashed e)].
  - rewrite !bind_unfold.
    destruct (get st "filled") as [f|e]; cbn [lift mret M_ret ret];
      [|by exists (Crashed e)].
    rewrite !bind_unfold.
    destruct (get f "avgPx") as [a|e]; cbn [lift mret M_ret ret];
      [|by exists (Crashed e)].
    rewrite !bind_unfold.
    destruct (get f "totalSz") as [t|e]; cbn [lift mret M_ret ret];
      [|by exists (Crashed e)].
    rewrite !bind_unfold.
    destruct (get f "oid") as [i|e]; cbn [lift mret M_ret ret];
      [|by exists (Crashed e)].
    by exists (Filled a t i).
  - rewrite !bind_unfold.
    destruct (has_property "error" st) as [[|]|e]; cbn [lift mret M_ret ret];
      [| |by exists (Crashed e)].
    + rewrite !bind_unfold.
      destruct (get st "error") as [x|e]; cbn [lift mret M_ret ret];
        [|by exists (Crashed e)].
      by exists (Rejected x).
    + rewrite !bind_unfold.
      destruct (has_property "resting" st) as [[|]|e];
        cbn [lift mret M_ret ret]; [| |by exists (Crashed e)].
      * rewrite !bind_unfold.
        destruct (get st "resting") as [x|e]; cbn [lift mret M_ret ret];
          [|by exists (Crashed e)].
        rewrite !bind_unfold.
        destruct (get x "oid") as [i|e]; cbn [lift mret M_ret ret];
          [|by exists (Crashed e)].
        by exists (Resting i).
      * by exists (Malformed r).
Qed.




Lemma classify_history args r h : snd (classify args r h) = h.
Proof. destruct (classify_total args r h) as [o ->]. done. Qed.

Lemma update_leverage_never_throws w args exchClient h e h' :
  update_leverage w args exchClient h <> (Throw e, h').
Proof.
  unfold update_leverage, try_catch.
  destruct (nonempty (leverage args)); [|done].
  rewrite bind_unfold. unfold call.
  destruct (meta w (EvMeta :: h)) as [universe|e1]; [|done].
  destruct (find_asset (coin args) universe) as [[i a]|]; [|done].
  by destruct (updateLeverage w _).
Qed.




Lemma emits_bind {A B} P (m : M A) (k : A -> M B) :
  emits P m -> (forall a, emits P (k a)) -> emits P (m ≫= k).
Proof.
  intros Hm Hk h Hh. rewrite bind_unfold. specialize (Hm h Hh).
  destruct (m h) as [[a|r|e] h1]; [by apply Hk|done..].
Qed.

Lemma emits_call {A} (P : event -> Prop) ev (answer : list event -> outcome A) :
  P ev -> emits P (call ev answer).
Proof.
  intros Hev h Hh. unfold call.
  destruct (answer _); cbn [snd]; by constructor.
Qed.

Lemma emits_lift {A} P (o : outcome A) : emits P (lift o).
Proof. destruct o; intros h Hh; exact Hh. Qed.

Lemma emits_ret {A} P (a : A) : emits P (mret a).
Proof. intros h Hh; exact Hh. Qed.

Lemma emits_return {A} P v : emits P (@return_ A v).
Proof. intros h Hh; exact Hh. Qed.

Lemma emits_log P line : P (EvLog line) -> emits P (log line).
Proof. intros Hl h Hh. cbn. by constructor. Qed.

Lemma emits_try {A} P (m : M A) handler :
  emits P m -> (forall e, emits P (handler e)) -> emits P (try_catch m handler).
Proof.
  intros Hm Hh h H0. unfold try_catch. specialize (Hm h H0).
  destruct (m h) as [[a|r|e] h1]; [done..|by apply Hh].
Qed.

Lemma emits_classify P args r : emits P (classify args r).
Proof. intros h Hh. by rewrite classify_history. Qed.

Lemma emits_assoc {A B C} P (m : M A) (k1 : A -> M B) (k2 : B -> M C) :
  emits P (m ≫= fun a => k1 a ≫= k2) -> emits P ((m ≫= k1) ≫= k2).
Proof.
  intros H h Hh. specialize (H h Hh). rewrite !bind_unfold in *.
  by destruct (m h) as [[a|r|e] h1].
Qed.

Lemma emits_ret_bind {A B} P (a : A) (k : A -> M B) :
  emits P (k a) -> emits P (mret a ≫= k).
Proof. intros H h Hh. by apply H. Qed.

Ltac emits :=
  repeat first
    [ apply emits_call; done | apply emits_lift | apply emits_ret
    | apply emits_log; done | apply emits_return | apply emits_classify
    | apply emits_assoc | apply emits_ret_bind
    | apply emits_bind; [|intros ?]
    | apply emits_try; [|intros ?]
    | match goal with
      | |- emits _ (if ?b then _ else _) => destruct b
      | |- emits _ (match ?x with _ => _ end) => destruct x
      end ].

Lemma emits_trade_as env w args pk :
  emits no_vault_order (trade_as env w args pk None).
Proof.
  unfold trade_as, trade, init_client, fetch_price, update_leverage,
    place_order.
  cbv zeta. emits.
Qed.




Lemma find_secret_None name secrets :
  name ∉ map secret_name secrets -> find_secret name secrets = None.
Proof.
  unfold find_secret. induction secrets as [|s l IH]; [done|].
  intros Hn. cbn in *. rewrite not_elem_of_cons in Hn.
  destruct Hn as [Hne Hn].
  destruct (String.eqb_spec (secret_name s) name); [congruence|]. by apply IH.
Qed.

(** C8: when the listing is fetched and no secret in it has the name
    [pk_name], [run] returns the failure whose error names the secret
    and whose [availableSecrets] are the names of all the secrets of
    the listing, in order. *)
Theorem missing_secret_lists_available env w args workspaceId key resp
    secrets :
  workspaceId <> "" -> OPENSERV_API_KEY env = Some key -> key <> "" ->
  fetch w [EvFetch (secrets_url env workspaceId) key] = Ok resp ->
  resp_ok resp = true ->
  resp_json resp = Ok secrets ->
  pk_name args ∉ map secret_name secrets ->
  run env w args (Some workspaceId)
  = (Return
       (Object
          [("error", Str ("Secret " ++ dq ++ pk_name args ++ dq
                            ++ " not found in OpenServ workspace"));
           ("availableSecrets",
            Array (map (fun s => Str (secret_name s)) secrets));
           ("success", Bool false)]),
     [EvFetch (secrets_url env workspaceId) key]).
Proof.
  intros Hws Hkey Hk Hfetch Hok Hjson Hpk.
  unfold run, try_catch, run_body. rewrite bind_unfold.
  unfold fetch_credentials.
  destruct workspaceId as [|c ws]; [done|].
  cbn [nonempty Regex.is_empty negb default].
  rewrite Hkey. destruct key as [|c' key]; [done|].
  cbn [nonempty Regex.is_empty negb default id].
  rewrite (bind_call_ok _ _ _ _ _ Hfetch). rewrite Hok. cbn [negb].
  rewrite Hjson. cbn [lift]. rewrite bind_ret.
  rewrite (find_secret_None _ _ Hpk). reflexivity.
Qed.

(** *** The theorems at concrete invocations *)

Lemma missing_secret_witness :
  run env0 world_waiting
    (mkTradeRequest "BTC" Buy "0.01" None None "missing" None) (Some "ws1")
  = (Return
       (Object
          [("error",
            Str ("Secret " ++ dq ++ "missing" ++ dq
                   ++ " not found in OpenServ workspace"));
           ("availableSecrets", Array [Str "k1"; Str "k2"]);
           ("success", Bool false)]),
     [EvFetch list_url "KEY"]).
Proof.
  apply (missing_secret_lists_available env0 world_waiting
           (mkTradeRequest "BTC" Buy "0.01" None None "missing" None)
           "ws1" "KEY" (mkResponse true 200 (Ok listing) (Ok "")) listing);
    try done.
  cbn. rewrite !not_elem_of_cons. repeat split; try done.
  apply not_elem_of_nil.
Defined.






(** The first end-to-end scenario of the specification: the filled
    result, and the limit price of the order submitted. *)
Example filled_scenario :
  fst (run env0 world_leverage_rejected request (Some "ws1"))
  = Return
      (Object
         [("success", Bool true); ("coin", Str "BTC"); ("side", Str "buy");
          ("size", Str "0.01"); ("leverage", Str "5");
          ("avgFillPrice", Str "50010"); ("totalFilled", Str "0.01");
          ("oid", Number (Num.of_Z 77));
          ("message", Str "Successfully longed 0.01 BTC")])
  /\ head (snd (run env0 world_leverage_rejected request (Some "ws1")))
     = Some (EvOrder client0 (mkOrder 1 true "50100" "0.01" false)).
Proof. by vm_compute. Qed.

End TradeFacts.

(** ** The calls of an invocation *)

Module RunFacts.

Import Js Json Trade TradeSpec RunSpec TradeFacts.
Local Open Scope string_scope.

Lemma run_history env w args ws P :
  emits P (run_body env w args ws) -> Forall P (snd (run env w args ws)).
Proof.
  intros H. unfold run.
  apply (emits_try P); [exact H|intros e; apply emits_return|constructor].
Qed.

Ltac run_steps :=
  unfold run_body, fetch_credentials, trade_as, trade, init_client,
    fetch_price, update_leverage, place_order, when;
  cbv zeta.

(** As [emits], with [tac] for the events of the calls and the lines. *)
Ltac emits_by tac :=
  repeat first
    [ apply emits_call; [solve [tac]] | apply emits_lift | apply emits_ret
    | apply emits_log; [solve [tac]] | apply emits_return
    | apply emits_classify
    | apply emits_assoc | apply emits_ret_bind
    | apply emits_bind; [|intros ?]
    | apply emits_try; [|intros ?]
    | match goal with
      | |- emits _ (if ?b then _ else _) => destruct b
      | |- emits _ (match ?x with _ => _ end) => destruct x
      end ].

(** X5: the transport is made for the testnet exactly when
    [HYPERLIQUID_TESTNET] is the string ['true'], with a timeout of
    30000, and every client, leverage update and order of the
    invocation is for that network. *)
Theorem run_on_network env w args workspaceId :
  Forall (on_network env) (snd (run env w args workspaceId)).
Proof.
  apply run_history. run_steps. emits.
Qed.

(** X8: every order of the invocation has the side and the size of
    the request, and is reduce-only exactly when the request says
    so. *)
Theorem run_order_as_requested env w args workspaceId :
  Forall (as_requested args) (snd (run env w args workspaceId)).
Proof.
  apply run_history. run_steps. emits.
Qed.

(** X6: [updateLeverage] is called only for a request with a
    non-empty [leverage], in cross mode, with [parseInt] of that
    string. *)
Theorem run_leverage_as_requested env w args workspaceId :
  Forall (leverage_as_requested args) (snd (run env w args workspaceId)).
Proof.
  apply run_history. run_steps.
  destruct (leverage args) as [[|c text]|] eqn:E;
    cbn [nonempty Regex.is_empty negb].
  - emits.
  - emits_by ltac:(first [done | split; [done|]; by exists (String c text)]).
  - emits.
Qed.

(** X2: every request [run] sends to the secret store carries the key
    of the environment, which is not empty, and goes to a URL under
    the secrets of the workspace of the action. *)
Theorem run_fetches_keyed env w args workspaceId :
  Forall (keyed_fetch env workspaceId) (snd (run env w args workspaceId)).
Proof.
  apply run_history. run_steps.
  destruct workspaceId as [[|c ws]|]; cbn [nonempty Regex.is_empty negb];
    try by emits.
  destruct (OPENSERV_API_KEY env) as [[|c' key]|] eqn:E;
    cbn [nonempty Regex.is_empty negb default id]; try by emits.
  emits_by ltac:(first
    [ done
    | cbn [keyed_fetch]; rewrite E; split; [done|]; split; [done|];
      eexists (String c ws), _; split; [done|]; split; [done|];
      first [ symmetry; apply DecimalFacts.string_app_nil | reflexivity ] ]).
Qed.

(** *** Orders and results *)

Lemma returns_only_bind {A B} Q (m : M A) (k : A -> M B) :
  returns_only Q m -> (forall a, returns_only Q (k a)) ->
  returns_only Q (m ≫= k).
Proof.
  intros Hm Hk h r h'. rewrite bind_unfold.
  destruct (m h) as [[a|r'|e] h1] eqn:E; intros H.
  - by eapply Hk.
  - inversion H; subst. by eapply Hm.
  - discriminate.
Qed.

Lemma returns_only_call {A} Q ev (answer : list event -> outcome A) :
  returns_only Q (call ev answer).
Proof. intros h r h'. unfold call. by destruct (answer _). Qed.

Lemma returns_only_lift {A} Q (o : outcome A) : returns_only Q (lift o).
Proof. by destruct o. Qed.

Lemma returns_only_ret {A} Q (a : A) : returns_only Q (mret a).
Proof. done. Qed.

Lemma returns_only_log Q line : returns_only Q (log line).
Proof. done. Qed.

Lemma returns_only_return {A} (Q : value -> Prop) v :
  Q v -> returns_only Q (@return_ A v).
Proof. intros Hv h r h' [= <- _]. done. Qed.

Lemma returns_only_try {A} Q (m : M A) handler :
  returns_only Q m -> (forall e, returns_only Q (handler e)) ->
  returns_only Q (try_catch m handler).
Proof.
  intros Hm Hh h r h'. unfold try_catch.
  destruct (m h) as [[a|r'|e] h1] eqn:E; intros H.
  - discriminate.
  - inversion H; subst. by eapply Hm.
  - by eapply Hh.
Qed.

Ltac returns_only_by tac :=
  repeat first
    [ apply returns_only_call | apply returns_only_lift
    | apply returns_only_ret | apply returns_only_log
    | apply returns_only_return; [solve [tac]]
    | apply returns_only_bind; [|intros ?]
    | apply returns_only_try; [|intros ?]
    | match goal with
      | |- returns_only _ (if ?b then _ else _) => destruct b
      | |- returns_only _ (match ?x with _ => _ end) => destruct x
      | |- returns_only _ (let '(_, _) := ?x in _) => destruct x
      end ].

Lemma settles_bind {A B} (m : M A) (k : A -> M B) :
  emits not_order m -> returns_only (has_success false) m ->
  (forall a, settles (k a)) -> settles (m ≫= k).
Proof.
  intros He Hr Hk h Hh. rewrite bind_unfold.
  specialize (He h Hh). specialize (Hr h).
  destruct (m h) as [[a|r|e] h1]; cbn [fst snd] in *.
  - by apply Hk.
  - right. split; [done|]. intros r' [= <-]. by eapply Hr.
  - right. split; [done|]. intros r' [=].
Qed.

Lemma settles_place_order w args exchClient coinPrice :
  settles (orderResult ← place_order w args exchClient coinPrice;
           classify args orderResult).
Proof.
  intros h Hh. rewrite bind_unfold. unfold place_order.
  rewrite bind_unfold. unfold call.
  destruct (meta w (EvMeta :: h)) as [universe|e].
  - destruct (find_asset (coin args) universe) as [[i a]|].
    + left. destruct (order w _) as [r|e].
      * rewrite classify_history. eexists _, _, _. split; [done|].
        by constructor.
      * eexists _, _, _. split; [done|]. by constructor.
    + right. split; [by constructor|]. intros r [= <-]. by eexists.
  - right. split; [by constructor|]. intros r [=].
Qed.

Lemma settles_run_body env w args ws : settles (run_body env w args ws).
Proof.
  unfold run_body. apply settles_bind.
  - unfold fetch_credentials, when. cbv zeta. emits.
  - unfold fetch_credentials, when. cbv zeta.
    returns_only_by ltac:(by eexists).
  - intros [pk vault]. unfold trade_as. apply settles_bind.
    { unfold init_client. cbv zeta. emits. }
    { unfold init_client. cbv zeta. returns_only_by ltac:(by eexists). }
    intros exchClient. apply settles_bind.
    { unfold fetch_price. cbv zeta. emits. }
    { unfold fetch_price. cbv zeta. returns_only_by ltac:(by eexists). }
    intros coinPrice. unfold trade. apply settles_bind.
    { unfold update_leverage. emits. }
    { unfold update_leverage. returns_only_by ltac:(by eexists). }
    intros _. apply settles_place_order.
Qed.

Lemma run_completion env w args ws :
  exists r, fst (run env w args ws) = Return r
    /\ snd (run env w args ws) = snd (run_body env w args ws [])
    /\ (forall r', fst (run_body env w args ws []) = Return r' -> r' = r)
    /\ (forall e, fst (run_body env w args ws []) = Throw e ->
          has_success false r).
Proof.
  unfold run, try_catch.
  pose proof (never_normal_run_body env w args ws []) as Hn.
  destruct (run_body env w args ws []) as [[a|r|e] h].
  - by destruct (Hn a h).
  - exists r. repeat split; [by intros r' [= <-]|done].
  - eexists. repeat split; [done|]. intros _ _. by eexists.
Qed.

(** X9: [run] submits at most one order, and the submission is the
    last call it makes. *)
Theorem run_submits_one_order_last env w args workspaceId :
  Forall not_order (snd (run env w args workspaceId))
  \/ exists client o h,
       snd (run env w args workspaceId) = EvOrder client o :: h
       /\ Forall not_order h.
Proof.
  destruct (run_completion env w args workspaceId) as (r & _ & -> & _).
  destruct (settles_run_body env w args workspaceId [])
    as [(client & o & h & E & Hh)|[Hh _]]; [constructor| |by left].
  right. by exists client, o, h.
Qed.

Lemma has_success_unique b b' r : has_success b r -> has_success b' r -> b = b'.
Proof. intros (f & -> & H) (f' & [= <-] & H'). congruence. Qed.

(** X10: a result with [success: true] is returned only after an
    order has been submitted: it is the newest call of the invocation,
    and the only order. *)
Theorem success_requires_order env w args workspaceId r :
  fst (run env w args workspaceId) = Return r ->
  has_success true r ->
  exists client o h,
    snd (run env w args workspaceId) = EvOrder client o :: h
    /\ Forall not_order h.
Proof.
  intros Hr Hs.
  destruct (run_completion env w args workspaceId)
    as (r0 & E & -> & Hret & Hthrow).
  rewrite E in Hr. injection Hr as ->.
  destruct (settles_run_body env w args workspaceId [])
    as [(client & o & h & Eh & Hh)|[_ Hf]];
    [constructor|by exists client, o, h|].
  exfalso.
  destruct (fst (run_body env w args workspaceId [])) as [a|r'|e] eqn:Eb.
  - by destruct (never_normal_run_body env w args workspaceId [] a
                   (snd (run_body env w args workspaceId [])));
      rewrite <- Eb; destruct (run_body _ _ _ _ _).
  - rewrite <- (Hret r' eq_refl) in Hs.
    by pose proof (has_success_unique _ _ _ Hs (Hf r' eq_refl)).
  - by pose proof (has_success_unique _ _ _ Hs (Hthrow e eq_refl)).
Qed.

(** *** The checks of step 1 *)

Lemma extends_bind {A B} (m : M A) (k : A -> M B) :
  extends m -> (forall a, extends (k a)) -> extends (m ≫= k).
Proof.
  intros Hm Hk h. rewrite bind_unfold. destruct (Hm h) as [evs E].
  destruct (m h) as [[a|r|e] h1]; cbn [snd] in *; subst h1;
    [|by exists evs..].
  destruct (Hk a (evs ++ h)%list) as [evs' ->].
  exists (evs' ++ evs)%list. by rewrite app_assoc.
Qed.

Lemma extends_call {A} ev (answer : list event -> outcome A) :
  extends (call ev answer).
Proof. intros h. exists [ev]. unfold call. by destruct (answer _). Qed.

Lemma extends_lift {A} (o : outcome A) : extends (lift o).
Proof. intros h. exists []. by destruct o. Qed.

Lemma extends_ret {A} (a : A) : extends (mret a).
Proof. intros h. by exists []. Qed.

Lemma extends_return {A} v : extends (@return_ A v).
Proof. intros h. by exists []. Qed.

Lemma extends_log line : extends (log line).
Proof. intros h. by exists [EvLog line]. Qed.

Lemma extends_classify args r : extends (classify args r).
Proof. intros h. exists []. by rewrite classify_history. Qed.

Lemma extends_try {A} (m : M A) handler :
  extends m -> (forall e, extends (handler e)) -> extends (try_catch m handler).
Proof.
  intros Hm Hh h. unfold try_catch. destruct (Hm h) as [evs E].
  destruct (m h) as [[a|r|e] h1]; cbn [snd] in *; subst h1;
    [by exists evs..|].
  destruct (Hh e (evs ++ h)%list) as [evs' ->].
  exists (evs' ++ evs)%list. by rewrite app_assoc.
Qed.

Ltac extends :=
  repeat first
    [ apply extends_call | apply extends_lift | apply extends_ret
    | apply extends_log | apply extends_return | apply extends_classify
    | apply extends_bind; [|intros ?]
    | apply extends_try; [|intros ?]
    | match goal with
      | |- extends (if ?b then _ else _) => destruct b
      | |- extends (match ?x with _ => _ end) => destruct x
      | |- extends (let '(_, _) := ?x in _) => destruct x
      end ].

Lemma extends_trade_as env w args pk vault :
  extends (trade_as env w args pk vault).
Proof.
  unfold trade_as, trade, init_client, fetch_price, update_leverage,
    place_order.
  cbv zeta. extends.
Qed.

Lemma bind_assoc_at {A B C} (m : M A) (k1 : A -> M B) (k2 : B -> M C) h :
  ((m ≫= k1) ≫= k2) h = (m ≫= fun a => k1 a ≫= k2) h.
Proof. rewrite !bind_unfold. by destruct (m h) as [[a|r|e] h1]. Qed.

Lemma last_after_first (m : M value) ev :
  extends m -> last (snd (try_catch m on_exception [ev])) = Some ev.
Proof.
  intros Hm.
  destruct (extends_try m on_exception Hm (fun e => extends_return _) [ev])
    as [evs ->].
  apply last_snoc.
Qed.

(** X1: without a workspace id, or without [OPENSERV_API_KEY], [run]
    returns the failure of that check and calls no collaborator at
    all; with both, the first call of the invocation is the request
    for the listing of the secrets of the workspace. *)
Theorem run_starts_with_listing env w args workspaceId :
  (nonempty workspaceId = false ->
   run env w args workspaceId
   = (Return (failure "Workspace ID is required to fetch secrets"), []))
  /\ (nonempty workspaceId = true ->
      nonempty (OPENSERV_API_KEY env) = false ->
      run env w args workspaceId
      = (Return (failure "OPENSERV_API_KEY not configured"), []))
  /\ (nonempty workspaceId = true ->
      nonempty (OPENSERV_API_KEY env) = true ->
      last (snd (run env w args workspaceId))
      = Some (EvFetch (secrets_url env (default "" workspaceId))
                (default "" (OPENSERV_API_KEY env)))).
Proof.
  unfold run. split; [|split].
  - intros H. unfold try_catch, run_body. rewrite bind_unfold.
    unfold fetch_credentials. by rewrite H.
  - intros H1 H2. unfold try_catch, run_body. rewrite bind_unfold.
    unfold fetch_credentials. by rewrite H1, H2.
  - intros H1 H2. unfold run_body, fetch_credentials.
    rewrite H1, H2. cbn [negb]. cbv zeta.
    set (ev := EvFetch _ _). unfold try_catch at 1.
    rewrite bind_assoc_at, bind_unfold. unfold call at 1.
    destruct (fetch w [ev]) as [resp|e]; [|done].
    apply last_after_first.
    apply extends_bind; [|intros [pk v]; apply extends_trade_as].
    unfold when. extends.
Qed.

(** *** Responses that are not [ok] *)

Lemma status_text_decimal status :
  (0 <= status < 1000)%Z ->
  status_text status = Num.string_of_digits (Num.digits_of status).
Proof.
  intros H.
  assert (Hall : forallb status_checked (seq 0 1000) = true)
    by (vm_compute; reflexivity).
  rewrite forallb_forall in Hall.
  specialize (Hall (Z.to_nat status)).
  unfold status_checked in Hall. rewrite Z2Nat.id in Hall by lia.
  apply String.eqb_eq, Hall, in_seq. lia.
Qed.

(** X3: when the listing answers with a response that is not [ok],
    [run] returns the failure with the status of the response in
    decimal, and the listing is the only call it makes. *)
Theorem listing_not_ok env w args workspaceId key resp :
  workspaceId <> "" -> OPENSERV_API_KEY env = Some key -> key <> "" ->
  fetch w [EvFetch (secrets_url env workspaceId) key] = Ok resp ->
  resp_ok resp = false ->
  (0 <= resp_status resp < 1000)%Z ->
  run env w args (Some workspaceId)
  = (Return
       (failure ("Failed to list secrets: "
                   ++ Num.string_of_digits
                        (Num.digits_of (resp_status resp)))),
     [EvFetch (secrets_url env workspaceId) key]).
Proof.
  intros Hws Hkey Hk Hfetch Hok Hstatus.
  unfold run, try_catch, run_body. rewrite bind_unfold.
  unfold fetch_credentials.
  destruct workspaceId as [|c ws]; [done|].
  cbn [nonempty Regex.is_empty negb default].
  rewrite Hkey. destruct key as [|c' key]; [done|].
  cbn [nonempty Regex.is_empty negb default id].
  rewrite (bind_call_ok _ _ _ _ _ Hfetch). rewrite Hok. cbn [negb].
  by rewrite status_text_decimal.
Qed.

(** *** The vault *)

Lemma yields_only_bind {A B} (Q : B -> Prop) (m : M A) (k : A -> M B) :
  (forall a, yields_only Q (k a)) -> yields_only Q (m ≫= k).
Proof.
  intros Hk h b h'. rewrite bind_unfold.
  destruct (m h) as [[a|r|e] h1]; [by apply Hk|done..].
Qed.

Lemma yields_only_ret {A} (Q : A -> Prop) a : Q a -> yields_only Q (mret a).
Proof. intros Ha h b h' [= <- _]. done. Qed.

Lemma yields_only_return {A} (Q : A -> Prop) v : yields_only Q (return_ v).
Proof. done. Qed.

Lemma emits_bind_yields {A B} P (Q : A -> Prop) (m : M A) (k : A -> M B) :
  emits P m -> yields_only Q m -> (forall a, Q a -> emits P (k a)) ->
  emits P (m ≫= k).
Proof.
  intros Hm Hq Hk h Hh. rewrite bind_unfold. specialize (Hm h Hh).
  specialize (Hq h).
  destruct (m h) as [[a|r|e] h1]; [|done..].
  apply Hk; [by eapply Hq|done].
Qed.

Lemma fetch_credentials_no_vault env w args ws :
  nonempty (vault_name args) = false ->
  yields_only (fun c => snd c = None) (fetch_credentials env w args ws).
Proof.
  intros Hv. unfold fetch_credentials. rewrite Hv. cbv zeta.
  repeat first
    [ apply yields_only_return | apply yields_only_ret; reflexivity
    | apply yields_only_bind; intros ?
    | match goal with
      | |- yields_only _ (if ?b then _ else _) => destruct b
      | |- yields_only _ (match ?x with _ => _ end) => destruct x
      end ].
Qed.

(** X4: without a [vault_name] (absent, or empty), no order of the
    invocation carries a vault address, whatever the collaborators
    answer. *)
Theorem no_vault_without_name env w args workspaceId :
  nonempty (vault_name args) = false ->
  Forall no_vault_order (snd (run env w args workspaceId)).
Proof.
  intros Hv. apply run_history. unfold run_body.
  apply (emits_bind_yields _ (fun c => snd c = None)).
  - unfold fetch_credentials, when. cbv zeta. emits.
  - by apply fetch_credentials_no_vault.
  - intros [pk vault] [= ->]. apply emits_trade_as.
Qed.

(** *** The order *)

(** X7: an order submitted by steps 5 to 7 is for the client of the
    invocation; its asset is the index of the first entry of the
    universe, as [meta()] answered just before, whose name is the
    coin, and its price is the limit price for the decimals of that
    entry. *)
Theorem order_targets_listed_asset w args exchClient coinPrice h c client o
    h' :
  place_order w args exchClient coinPrice h = (c, EvOrder client o :: h') ->
  exists universe asset,
    h' = EvMeta :: h /\ meta w h' = Ok universe
    /\ universe !! order_a o = Some asset
    /\ asset_name asset = coin args
    /\ (forall j other, universe !! j = Some other -> (j < order_a o)%nat ->
          asset_name other <> coin args)
    /\ order_p o
       = limitPriceOf coinPrice (side args) (szDecimals asset)
    /\ client = exchClient.
Proof.
  unfold place_order. rewrite bind_unfold. unfold call.
  destruct (meta w (EvMeta :: h)) as [universe|e] eqn:Em; [|by intros [=]].
  destruct (find_asset (coin args) universe) as [[i a]|] eqn:Ef;
    [|by intros [=]].
  apply list_find_Some in Ef as (Hi & Hn & Hfirst).
  intros H.
  assert (E : EvOrder client o :: h'
              = EvOrder exchClient
                  (mkOrder i (is_buy (side args))
                     (limitPriceOf coinPrice (side args) (szDecimals a))
                     (size args) (default false (reduceOnly args)))
                  :: EvMeta :: h).
  { destruct (order w _); injection H as _ <- <- <-; reflexivity. }
  injection E as -> -> ->. cbn [order_a order_p].
  exists universe, a. by repeat split.
Qed.

(** *** The theorems at concrete invocations *)

Lemma listing_not_ok_witness :
  run Scenarios.env0 Examples.world_forbidden Scenarios.request (Some "ws1")
  = (Return (failure "Failed to list secrets: 403"),
     [EvFetch Scenarios.list_url "KEY"]).
Proof.
  apply (listing_not_ok Scenarios.env0 Examples.world_forbidden
           Scenarios.request "ws1" "KEY" Examples.forbidden);
    done.
Defined.

Lemma no_vault_without_name_witness :
  Forall no_vault_order
    (snd (run Scenarios.env0 Scenarios.world_waiting Scenarios.request
            (Some "ws1"))).
Proof.
  apply (no_vault_without_name Scenarios.env0 Scenarios.world_waiting
           Scenarios.request (Some "ws1")).
  reflexivity.
Defined.

Lemma order_targets_listed_asset_witness :
  exists universe asset,
    [EvMeta] = [EvMeta]
    /\ meta Scenarios.world_leverage_rejected [EvMeta] = Ok universe
    /\ universe !! 1%nat = Some asset
    /\ asset_name asset = "BTC"
    /\ (forall j other, universe !! j = Some other -> (j < 1)%nat ->
          asset_name other <> "BTC")
    /\ "50100" = limitPriceOf "50000" Buy (szDecimals asset)
    /\ Scenarios.client0 = Scenarios.client0.
Proof.
  apply (order_targets_listed_asset Scenarios.world_leverage_rejected
           Scenarios.request Scenarios.client0 "50000" []
           (Normal (Scenarios.reply Scenarios.filled_status))
           Scenarios.client0 (mkOrder 1 true "50100" "0.01" false) [EvMeta]).
  by vm_compute.
Defined.

Lemma success_requires_order_witness :
  exists client o h,
    snd (run Scenarios.env0 Scenarios.world_leverage_rejected
           Scenarios.request (Some "ws1"))
    = EvOrder client o :: h
    /\ Forall not_order h.
Proof.
  apply (success_requires_order Scenarios.env0
           Scenarios.world_leverage_rejected Scenarios.request (Some "ws1")
           (filled_result Scenarios.request (Some (Str "50010"))
              (Some (Str "0.01")) (Some (Number (Num.of_Z 77))))).
  - by vm_compute.
  - by eexists.
Defined.

End RunFacts.

(** ** The number of calls of an invocation *)

Module BudgetFacts.
Import Js Json Trade TradeSpec TradeFacts BudgetSpec.
Local Open Scope string_scope.

Lemma calls_cons k ev h :
  calls k (ev :: h) = ((if is_call k ev then 1 else 0) + calls k h)%nat.
Proof. unfold calls. cbn [List.filter]. by destruct (is_call k ev). Qed.

Lemma at_most_weaken {A} k n n' (m : M A) :
  (n <= n')%nat -> calls_at_most k n m -> calls_at_most k n' m.
Proof. intros Hn Hm h. specialize (Hm h). lia. Qed.

Lemma at_most_bind {A B} k n1 n2 (m : M A) (f : A -> M B) :
  calls_at_most k n1 m -> (forall a, calls_at_most k n2 (f a)) ->
  calls_at_most k (n1 + n2) (m ≫= f).
Proof.
  intros Hm Hf h. rewrite bind_unfold. specialize (Hm h).
  destruct (m h) as [[a|r|e] h1]; cbn [snd] in *; [|lia..].
  specialize (Hf a h1). lia.
Qed.

Lemma at_most_call {A} k ev (answer : list event -> outcome A) :
  calls_at_most k (if is_call k ev then 1 else 0) (call ev answer).
Proof.
  intros h. unfold call. destruct (answer _); cbn [snd];
    rewrite calls_cons; lia.
Qed.

Lemma at_most_lift {A} k (o : outcome A) : calls_at_most k 0 (lift o).
Proof. intros h. destruct o; cbn [lift ret throw snd]; lia. Qed.

Lemma at_most_ret {A} k (a : A) : calls_at_most k 0 (mret a).
Proof. intros h. cbn [mret M_ret ret snd]. lia. Qed.

Lemma at_most_return {A} k v : calls_at_most k 0 (@return_ A v).
Proof. intros h. cbn [return_ snd]. lia. Qed.

Lemma at_most_log k line : calls_at_most k 0 (log line).
Proof.
  intros h. cbn [log snd]. rewrite calls_cons.
  destruct k; cbn [is_call]; lia.
Qed.

Lemma at_most_classify k args r : calls_at_most k 0 (classify args r).
Proof. intros h. rewrite classify_history. lia. Qed.

Lemma at_most_try {A} k n1 n2 (m : M A) handler :
  calls_at_most k n1 m -> (forall e, calls_at_most k n2 (handler e)) ->
  calls_at_most k (n1 + n2) (try_catch m handler).
Proof.
  intros Hm Hh h. unfold try_catch. specialize (Hm h).
  destruct (m h) as [[a|r|e] h1]; cbn [snd] in *; [lia..|].
  specialize (Hh e h1). lia.
Qed.

(** A bound for each step: the calls are counted along the longest
    path; a bound [n] of a sequence is split between its first step
    (none of it, or one call) and the rest. *)
Ltac at_most :=
  lazymatch goal with
  | |- calls_at_most _ _ (call _ _) =>
      eapply at_most_weaken; [|apply at_most_call]; cbn; lia
  | |- calls_at_most _ _ (lift _) =>
      eapply at_most_weaken; [|apply at_most_lift]; lia
  | |- calls_at_most _ _ (mret _) =>
      eapply at_most_weaken; [|apply at_most_ret]; lia
  | |- calls_at_most _ _ (ret _) =>
      eapply at_most_weaken; [|apply at_most_ret]; lia
  | |- calls_at_most _ _ (return_ _) =>
      eapply at_most_weaken; [|apply at_most_return]; lia
  | |- calls_at_most _ _ (log _) =>
      eapply at_most_weaken; [|apply at_most_log]; lia
  | |- calls_at_most _ _ (classify _ _) =>
      eapply at_most_weaken; [|apply at_most_classify]; lia
  | |- calls_at_most _ _ (if ?b then _ else _) => destruct b; at_most
  | |- calls_at_most _ _ (match ?x with _ => _ end) => destruct x; at_most
  | |- calls_at_most _ _ (let '(_, _) := ?x in _) => destruct x; at_most
  | |- calls_at_most ?k ?n (try_catch _ _) =>
      eapply at_most_weaken;
        [|apply (at_most_try k n 0%nat); [|intros ?]]; [lia|at_most..]
  | |- calls_at_most ?k ?n (_ ≫= _) =>
      first
        [ eapply at_most_weaken;
            [|apply (at_most_bind k 0%nat n); [|intros ?]];
            [lia|solve [at_most]..]
        | lazymatch n with
          | S ?n' =>
              eapply at_most_weaken;
                [|apply (at_most_bind k 1%nat n'); [|intros ?]];
                [lia|solve [at_most]..]
          end ]
  end.

Section Steps.
Variable env : Env.
Variable w : World.
Variable args : TradeRequest.

Lemma fetch_credentials_budget ws k :
  calls_at_most k (match k with SecretStore => 3 | _ => 0 end)
    (fetch_credentials env w args ws).
Proof.
  unfold fetch_credentials, when. cbv zeta. destruct k; at_most.
Qed.

Lemma init_client_budget pk vault k :
  calls_at_most k 0 (init_client env w pk vault).
Proof. unfold init_client. cbv zeta. destruct k; at_most. Qed.

Lemma fetch_price_budget k :
  calls_at_most k (match k with Prices => 1 | _ => 0 end)
    (fetch_price w args).
Proof. unfold fetch_price. cbv zeta. destruct k; at_most. Qed.

Lemma update_leverage_budget exchClient k :
  calls_at_most k (match k with Metadata | Leverage => 1 | _ => 0 end)
    (update_leverage w args exchClient).
Proof. unfold update_leverage. destruct k; at_most. Qed.

Lemma place_order_budget exchClient coinPrice k :
  calls_at_most k (match k with Metadata | Submission => 1 | _ => 0 end)
    (place_order w args exchClient coinPrice).
Proof. unfold place_order. cbv zeta. destruct k; at_most. Qed.

Lemma run_body_budget ws k :
  calls_at_most k (budget k) (run_body env w args ws).
Proof.
  unfold run_body. eapply at_most_weaken; cycle 1.
  - eapply at_most_bind; [apply fetch_credentials_budget|].
    intros [pk vault]. unfold trade_as.
    eapply at_most_bind; [apply init_client_budget|]. intros exchClient.
    eapply at_most_bind; [apply fetch_price_budget|]. intros coinPrice.
    unfold trade.
    eapply at_most_bind; [apply update_leverage_budget|]. intros _.
    eapply at_most_bind; [apply place_order_budget|]. intros r.
    apply at_most_classify.
  - destruct k; cbn; lia.
Qed.

End Steps.

Lemma run_budget env w args workspaceId k :
  (calls k (snd (run env w args workspaceId)) <= budget k)%nat.
Proof.
  unfold run.
  pose proof (at_most_try k _ 0 _ on_exception
                (run_body_budget env w args workspaceId k)
                (fun e => at_most_return k _) []) as H.
  cbn [calls List.filter length] in H. lia.
Qed.

(** X27: an invocation makes at most three requests to the secret
    store, one request for the prices, two for the metadata, one
    leverage update and one order submission, whatever the
    collaborators answer. *)
Theorem run_call_budget env w args workspaceId :
  (calls SecretStore (snd (run env w args workspaceId)) <= 3)%nat
  /\ (calls Prices (snd (run env w args workspaceId)) <= 1)%nat
  /\ (calls Metadata (snd (run env w args workspaceId)) <= 2)%nat
  /\ (calls Leverage (snd (run env w args workspaceId)) <= 1)%nat
  /\ (calls Submission (snd (run env w args workspaceId)) <= 1)%nat.
Proof.
  repeat split.
  - apply (run_budget env w args workspaceId SecretStore).
  - apply (run_budget env w args workspaceId Prices).
  - apply (run_budget env w args workspaceId Metadata).
  - apply (run_budget env w args workspaceId Leverage).
  - apply (run_budget env w args workspaceId Submission).
Qed.

End BudgetFacts.

(** ** The request for the value of the key *)

Module KeyFacts.
Import Js Json Trade TradeSpec TradeFacts RunSpec RunFacts KeySpec.
Local Open Scope string_scope.

(** X28: when the listing has the secret of the private key and the
    request for its value answers with a response that is not [ok],
    [run] returns the failure with the name of the secret and the
    status in decimal; the two requests, and the vault warning
    between them if there is one, are all it does. *)
Theorem key_value_not_ok env w args workspaceId key listing secrets secret
    resp :
  workspaceId <> "" -> OPENSERV_API_KEY env = Some key -> key <> "" ->
  fetch w [EvFetch (secrets_url env workspaceId) key] = Ok listing ->
  resp_ok listing = true ->
  resp_json listing = Ok secrets ->
  find_secret (pk_name args) secrets = Some secret ->
  let h := EvFetch (secret_value_url env workspaceId secret) key
             :: (vault_notice args secrets
                   ++ [EvFetch (secrets_url env workspaceId) key])%list in
  fetch w h = Ok resp ->
  resp_ok resp = false ->
  (0 <= resp_status resp < 1000)%Z ->
  run env w args (Some workspaceId)
  = (Return
       (failure ("Failed to get " ++ dq ++ pk_name args ++ dq ++ " value: "
                   ++ Num.string_of_digits
                        (Num.digits_of (resp_status resp)))),
     h).
Proof.
  intros Hws Hkey Hk Hlist Hok Hjson Hfind h Hvalue Hno Hstatus.
  unfold run, try_catch, run_body. rewrite bind_unfold.
  unfold fetch_credentials.
  destruct workspaceId as [|c ws]; [done|].
  cbn [nonempty Regex.is_empty negb default].
  rewrite Hkey. destruct key as [|c' key]; [done|].
  cbn [nonempty Regex.is_empty negb default id].
  rewrite (bind_call_ok _ _ _ _ _ Hlist). rewrite Hok. cbn [negb].
  rewrite Hjson. cbn [lift]. rewrite bind_ret, Hfind.
  rewrite bind_unfold.
  unfold h, vault_notice, secret_value_url, secrets_url, vault_warning in *.
  destruct (vault_name args) as [[|cv vault]|];
    cbn [nonempty Regex.is_empty negb andb default id when] in *.
  - cbn [mret M_ret ret app] in *.
    rewrite (bind_call_ok _ _ _ _ _ Hvalue), Hno. cbn [negb].
    by rewrite status_text_decimal.
  - destruct (find_secret (String cv vault) secrets) as [vs|].
    + rewrite bool_decide_eq_false_2 in * by done.
      cbn [when mret M_ret ret app] in *.
      rewrite (bind_call_ok _ _ _ _ _ Hvalue), Hno. cbn [negb].
      by rewrite status_text_decimal.
    + rewrite bool_decide_eq_true_2 in * by done.
      cbn [when log app] in *.
      rewrite (bind_call_ok _ _ _ _ _ Hvalue), Hno. cbn [negb].
      by rewrite status_text_decimal.
  - cbn [mret M_ret ret app] in *.
    rewrite (bind_call_ok _ _ _ _ _ Hvalue), Hno. cbn [negb].
    by rewrite status_text_decimal.
Qed.

Lemma key_value_not_ok_witness :
  run Scenarios.env0 Examples.world_key_denied Scenarios.request (Some "ws1")
  = (Return (failure ("Failed to get " ++ dq ++ "k1" ++ dq ++ " value: 401")),
     [EvFetch (Scenarios.list_url ++ "/1/value") "KEY";
      EvFetch Scenarios.list_url "KEY"]).
Proof.
  apply (key_value_not_ok Scenarios.env0 Examples.world_key_denied
           Scenarios.request "ws1" "KEY"
           (mkResponse true 200 (Ok Scenarios.listing) (Ok ""))
           Scenarios.listing (mkSecret "1" "k1") Examples.denied);
    done.
Defined.

End KeyFacts.

(** ** The limit price: its form and its distance to the price *)

Module PriceFacts.

Import Num NumSpec NumFacts DecimalFacts ToFixedFacts Quantizer Scenarios.
Import QuantizerFacts RoundingFacts PriceSpec.
Local Open Scope string_scope.
Local Open Scope Q_scope.

Lemma fixed_string_plain n f : (0 <= n)%Z -> plain_decimal f (fixed_string n f).
Proof.
  intros Hn. unfold fixed_string.
  destruct (digits_of_spec n Hn) as (Hd & _ & Hlen & _).
  set (m := (replicate (S f - length (digits_of n)) 0%Z ++ digits_of n)%list).
  assert (Hm : Forall is_digit m).
  { apply Forall_app. split; [|done].
    apply Forall_replicate. unfold is_digit. lia. }
  assert (Hk : (f < length m)%nat).
  { unfold m. rewrite length_app, length_replicate. lia. }
  exists (take (length m - f) m), (drop (length m - f) m).
  split; [by apply Forall_take|]. split; [by apply Forall_drop|].
  split.
  { intros E. apply (f_equal length) in E. rewrite length_take in E.
    cbn [length] in E. lia. }
  split; [rewrite length_drop; lia|].
  destruct f as [|f]; [|done].
  rewrite Nat.sub_0_r, firstn_all. by rewrite string_app_nil.
Qed.

(** X11: for a positive price of at most [10^12] the limit price is
    a plain decimal, without sign or exponent, with exactly the
    fraction digits of the tick ([0], [1], [2] or [3]). *)
Theorem limitPrice_plain_decimal price side sd :
  positive price -> mag price <= 1000000000000 ->
  plain_decimal (fractionDigits sd) (limitPrice price side sd).
Proof.
  intros Hp Hx. destruct price as [| |[|] m e]; try done.
  cbn [positive] in Hp. unfold limitPrice.
  destruct (adjusted_price m e side) as (mx & ex & -> & Hmx & _ & _ & Hb);
    [lia|done|].
  destruct (roundToTick_spec mx ex sd Hmx) as
    (mq & eq & Eq & Hmq & Heq & Q1 & Q2 & Hq51 & ->); [lra|].
  apply fixed_string_plain, Qfloor_nonneg.
  pose proof (mag_nonneg false mq eq Hmq). lra.
Qed.

(** X12: for a positive price of at most [10^12] the limit price is
    within one tick of the price times 1.002 (buy) or 0.998 (sell),
    the floating-point errors of the three operations included. *)
Theorem limitPrice_within_tick price side sd :
  positive price -> mag price <= 1000000000000 ->
  exists v,
    decimal_value (limitPrice price side sd) = Some v
    /\ mag price * exact_adjustment side - exact_tick sd <= v
    /\ v <= mag price * exact_adjustment side + exact_tick sd.
Proof.
  intros Hp Hhi. destruct price as [| |[|] m e]; try done.
  cbn [positive] in Hp. assert (Hm0 : (0 <= m)%Z) by lia.
  unfold limitPrice.
  destruct (adjusted_price m e side Hm0 Hhi)
    as (mx & ex & -> & Hmx & X1 & X2 & Hb).
  destruct (roundToTick_spec mx ex sd Hmx) as
    (mq & eq & Eq & Hmq & Heq & Q1 & Q2 & Hq51 & ->); [lra|].
  set (K := Qfloor (mag (Finite false mq eq) + (1 # 2))).
  assert (HK : (0 <= K)%Z).
  { apply Qfloor_nonneg. pose proof (mag_nonneg false mq eq Hmq). lra. }
  destruct (Qfloor_bounds (mag (Finite false mq eq) + (1 # 2))) as [F1 F2].
  fold K in F1, F2.
  eexists. split; [exact (decimal_value_fixed false K _ HK)|].
  rewrite exact_tick_pow.
  destruct (tick_cases sd) as [[Et Ef]|[[Et Ef]|[[Et Ef]|[Et Ef]]]];
    rewrite Et, Ef in *.
  - bracket_row m e Hm0 mx ex lit_1 mag_lit_1 0%nat 1%positive.
    destruct side; cbn [priceAdjustment exact_adjustment] in *;
      [rewrite mag_lit_1_002 in *|rewrite mag_lit_0_998 in *];
      clearbody K a x p; lra.
  - bracket_row m e Hm0 mx ex lit_0_1 mag_lit_0_1 1%nat 10%positive.
    destruct side; cbn [priceAdjustment exact_adjustment] in *;
      [rewrite mag_lit_1_002 in *|rewrite mag_lit_0_998 in *];
      clearbody K a x p; lra.
  - bracket_row m e Hm0 mx ex lit_0_01 mag_lit_0_01 2%nat 100%positive.
    destruct side; cbn [priceAdjustment exact_adjustment] in *;
      [rewrite mag_lit_1_002 in *|rewrite mag_lit_0_998 in *];
      clearbody K a x p; lra.
  - bracket_row m e Hm0 mx ex lit_0_001 mag_lit_0_001 3%nat 1000%positive.
    destruct side; cbn [priceAdjustment exact_adjustment] in *;
      [rewrite mag_lit_1_002 in *|rewrite mag_lit_0_998 in *];
      clearbody K a x p; lra.
Qed.

(** X15: a price string that [parseFloat] reads as [NaN] is not
    rejected: the limit price is the string ["NaN"]. *)
Theorem limitPrice_of_unreadable_price coinPrice side sd :
  parseFloat coinPrice = NaN -> limitPriceOf coinPrice side sd = "NaN".
Proof.
  intros H. unfold limitPriceOf, limitPrice, roundToTick. rewrite H.
  reflexivity.
Qed.

Lemma limitPrice_plain_decimal_witness :
  plain_decimal (fractionDigits 5) (limitPrice price_50000 Buy 5).
Proof. apply (limitPrice_plain_decimal price_50000 Buy 5); by vm_compute. Defined.

Lemma limitPrice_within_tick_witness :
  exists v,
    decimal_value (limitPrice price_50000 Buy 5) = Some v
    /\ mag price_50000 * exact_adjustment Buy - exact_tick 5 <= v
    /\ v <= mag price_50000 * exact_adjustment Buy + exact_tick 5.
Proof. apply (limitPrice_within_tick price_50000 Buy 5); by vm_compute. Defined.

Lemma limitPrice_of_unreadable_price_witness :
  limitPriceOf "n/a" Buy 5 = "NaN".
Proof. apply (limitPrice_of_unreadable_price "n/a" Buy 5). reflexivity. Defined.

End PriceFacts.

(** ** The leverage and the price, as read from their strings *)

Module ParseFacts.

Import Num NumSpec NumFacts DecimalFacts PriceSpec.
Local Open Scope string_scope.
Local Open Scope Z_scope.

Lemma radix_digit_char d : is_digit d -> radix_digit 10 (digit_char d) = Some d.
Proof. intros H. digit_cases H; reflexivity. Qed.

Lemma radix_digit_other c : char_digit c = None -> radix_digit 10 c = None.
Proof.
  unfold char_digit, radix_digit. cbv zeta.
  set (n := Z.of_nat (nat_of_ascii c)).
  destruct ((48 <=? n) && (n <=? 57)); [done|]. intros _.
  destruct (Z.leb_spec 97 n), (Z.leb_spec n 122); cbn [andb].
  1: destruct (Z.ltb_spec (n - 87) 10); [lia|done].
  all: destruct (Z.leb_spec 65 n), (Z.leb_spec n 90); cbn [andb]; try done.
  all: destruct (Z.ltb_spec (n - 55) 10); [lia|done].
Qed.

Lemma read_radix_digits_string ds rest :
  Forall is_digit ds -> no_digit_ahead rest ->
  read_radix_digits 10 (string_of_digits ds ++ rest) = ds.
Proof.
  intros Hds Hrest. induction Hds as [|d ds Hd Hds IH].
  - change (read_radix_digits 10 rest = []).
    destruct rest as [|c r]; [done|].
    cbn [read_radix_digits no_digit_ahead] in *.
    by rewrite radix_digit_other.
  - change (read_radix_digits 10
              (String (digit_char d) (string_of_digits ds ++ rest))
            = d :: ds).
    cbn [read_radix_digits]. by rewrite (radix_digit_char d Hd), IH.
Qed.

Lemma digit_char_x d :
  is_digit d ->
  (Ascii.eqb (digit_char d) "x" || Ascii.eqb (digit_char d) "X")%bool = false.
Proof. intros H. digit_cases H; reflexivity. Qed.

Lemma digit_char_zero d :
  is_digit d -> d <> 0 ->
  forall r, match String (digit_char d) r with
            | String "0" (String c r') =>
                if (Ascii.eqb c "x" || Ascii.eqb c "X")%bool then (16, r')
                else (10, String (digit_char d) r)
            | _ => (10, String (digit_char d) r)
            end = (10, String (digit_char d) r).
Proof. intros H Hd r. digit_cases H; done. Qed.

(** X17: [parseInt] of a leverage that starts with decimal digits is
    the integer of those digits, whatever follows them (["2.5"] gives
    2 and ["5x"] gives 5), unless the string starts with [0x]. *)
Theorem parseInt_leading_digits ds tail :
  Forall is_digit ds -> ds <> [] -> no_digit_ahead tail ->
  (ds = [0] -> hex_marker tail = false) ->
  parseInt (string_of_digits ds ++ tail) = of_Z (digits_value ds).
Proof.
  intros Hds Hne Htail Hhex. unfold parseInt.
  destruct ds as [|d ds]; [done|].
  inversion Hds as [|? ? Hd Hds']; subst.
  change (string_of_digits (d :: ds) ++ tail)
    with (String (digit_char d) (string_of_digits ds ++ tail)).
  rewrite (trim_start_digit d _ Hd), (read_sign_digit d _ Hd).
  assert (Hr : match String (digit_char d) (string_of_digits ds ++ tail) with
               | String "0" (String c r') =>
                   if (Ascii.eqb c "x" || Ascii.eqb c "X")%bool then (16, r')
                   else (10, String (digit_char d)
                               (string_of_digits ds ++ tail))
               | _ => (10, String (digit_char d) (string_of_digits ds ++ tail))
               end
               = (10, String (digit_char d) (string_of_digits ds ++ tail))).
  { destruct (Z.eq_dec d 0) as [->|Hd0]; [|by apply digit_char_zero].
    change (digit_char 0) with "0"%char.
    destruct ds as [|d' ds].
    - change (string_of_digits [] ++ tail) with tail.
      specialize (Hhex eq_refl). destruct tail as [|c r]; [done|].
      cbn [hex_marker] in Hhex. cbv iota beta. by rewrite Hhex.
    - inversion Hds' as [|? ? Hd' _]; subst.
      change (string_of_digits (d' :: ds) ++ tail)
        with (String (digit_char d') (string_of_digits ds ++ tail)).
      cbv iota beta. by rewrite (digit_char_x d' Hd'). }
  rewrite Hr.
  change (String (digit_char d) (string_of_digits ds ++ tail))
    with (string_of_digits (d :: ds) ++ tail).
  rewrite (read_radix_digits_string _ _ Hds Htail).
  change (fold_left (fun acc d0 => 10 * acc + d0) (d :: ds) 0)
    with (digits_value (d :: ds)).
  pose proof (digits_value_bound (d :: ds)) as Hb.
  assert (H0 : 0 <= digits_value (d :: ds)).
  { clear -Hds. unfold digits_value.
    assert (G : forall l a, Forall is_digit l -> 0 <= a ->
              0 <= fold_left (fun acc d0 => 10 * acc + d0) l a).
    { induction l as [|x l IH]; intros a Hl Ha; [done|].
      inversion Hl as [|? ? Hx Hl']; subst. cbn [fold_left].
      apply IH; [done|]. unfold is_digit in Hx. lia. }
    by apply G. }
  unfold of_Z. destruct (Z.ltb_spec (digits_value (d :: ds)) 0); [lia|].
  by rewrite Z.abs_eq.
Qed.

(** X18: [parseInt] of a leverage whose text, after white space and
    a sign, is empty or starts with anything but a digit is [NaN]. *)
Theorem parseInt_without_digits s :
  (forall c r, snd (read_sign (trim_start s)) = String c r ->
     radix_digit 10 c = None) ->
  parseInt s = NaN.
Proof.
  intros H. unfold parseInt.
  destruct (read_sign (trim_start s)) as [neg r] eqn:E. cbn [snd] in H.
  destruct r as [|c r]; [done|].
  specialize (H c r eq_refl).
  assert (Hc : c <> "0"%char) by (by intros ->).
  assert (Hr : match String c r with
               | String "0" (String c' r') =>
                   if (Ascii.eqb c' "x" || Ascii.eqb c' "X")%bool
                   then (16, r') else (10, String c r)
               | _ => (10, String c r)
               end = (10, String c r)).
  { destruct c as [[|] [|] [|] [|] [|] [|] [|] [|]]; try done. }
  rewrite Hr. cbn [read_radix_digits]. by rewrite H.
Qed.

(** X16: [parseFloat] reads a plain decimal, digits with or without
    a point and more digits, as the Number nearest to the decimal it
    writes. *)
Theorem parseFloat_plain_decimal int frac :
  Forall is_digit int -> int <> [] -> Forall is_digit frac ->
  parseFloat (string_of_digits int ++ "." ++ string_of_digits frac)
  = round_mag false
      (inject_Z (digits_value (int ++ frac))
       * 10 ^ (- Z.of_nat (length frac)))%Q
  /\ parseFloat (string_of_digits int)
     = round_mag false (inject_Z (digits_value int)).
Proof.
  intros Hint Hne Hfrac.
  destruct int as [|d int]; [done|].
  inversion Hint as [|? ? Hd Hint']; subst.
  split.
  - unfold parseFloat.
    pose proof (parse_literal_digit_head false
                  (string_of_digits (d :: int) ++ "." ++ string_of_digits frac)
                  d (string_of_digits int ++ "." ++ string_of_digits frac)
                  Hd eq_refl) as Hp.
    change (parse_literal
              (string_of_digits (d :: int) ++ "." ++ string_of_digits frac)
            = parse_unsigned false
                (string_of_digits (d :: int) ++ "." ++ string_of_digits frac))
      in Hp.
    rewrite Hp.
    by rewrite (parse_unsigned_fraction false _ _ Hint Hne Hfrac).
  - unfold parseFloat.
    pose proof (parse_literal_digit_head false (string_of_digits (d :: int))
                  d (string_of_digits int) Hd eq_refl) as Hp.
    change (parse_literal (string_of_digits (d :: int))
            = parse_unsigned false (string_of_digits (d :: int))) in Hp.
    rewrite Hp.
    rewrite (parse_unsigned_integer false _ Hint Hne).
    cbn [literal_number]. apply round_mag_proper.
    change (10 ^ 0)%Q with 1%Q. ring.
Qed.

Lemma parseInt_leading_digits_witness :
  parseInt (string_of_digits [2] ++ ".5") = of_Z (digits_value [2])
  /\ parseInt (string_of_digits [5] ++ "x") = of_Z (digits_value [5]).
Proof.
  split.
  - apply (parseInt_leading_digits [2] ".5"); try done.
    repeat constructor; done.
  - apply (parseInt_leading_digits [5] "x"); try done.
    repeat constructor; done.
Defined.

Lemma parseInt_without_digits_witness : parseInt "max" = NaN.
Proof.
  apply (parseInt_without_digits "max"). by intros c r [= <- _].
Defined.

Lemma parseFloat_plain_decimal_witness :
  parseFloat (string_of_digits [5; 0; 0; 0; 0] ++ "." ++ string_of_digits [5])
  = round_mag false
      (inject_Z (digits_value [5; 0; 0; 0; 0; 5]%Z)
       * 10 ^ (- Z.of_nat (length [5%Z])))%Q
  /\ parseFloat (string_of_digits [5; 0; 0; 0; 0])
     = round_mag false (inject_Z (digits_value [5; 0; 0; 0; 0])).
Proof.
  apply (parseFloat_plain_decimal [5; 0; 0; 0; 0] [5]); try done.
  all: repeat constructor; done.
Defined.

End ParseFacts.

(** ** The limit price keeps the order of prices *)

Module MonotoneFacts.

Import Num NumSpec NumFacts DecimalFacts ToFixedFacts Quantizer Scenarios.
Import QuantizerFacts RoundingFacts PriceSpec.
Local Open Scope string_scope.
Local Open Scope Q_scope.

Lemma ilog2_mono x y : 0 < x -> x <= y -> (ilog2 x <= ilog2 y)%Z.
Proof.
  intros Hx Hxy. assert (Hy : 0 < y) by lra.
  destruct (ilog2_spec x Hx) as [L1 _].
  destruct (ilog2_spec y Hy) as [_ L2].
  destruct (Z.le_gt_cases (ilog2 x) (ilog2 y)); [done|].
  assert (pow2 (ilog2 y + 1) <= pow2 (ilog2 x)) by (apply pow2_le; lia).
  lra.
Qed.

(** The value of a rounding below [2^1023]. *)
Lemma round_mag_value x :
  0 < x -> x < pow2 1023 ->
  exists m e,
    round_mag false x = Finite false m e
    /\ inject_Z m * pow2 e
       == inject_Z (round_half_even (x / pow2 (ulp_exp x)))
          * pow2 (ulp_exp x).
Proof.
  intros Hp Hx. unfold round_mag.
  destruct (Qle_bool x 0) eqn:E1.
  { apply Qle_bool_iff in E1. lra. }
  destruct (round_mag_scaled x Hp) as (R1 & R2 & R3 & R4).
  pose proof (ilog2_upper x 1023 Hp Hx) as Hl.
  set (e := ulp_exp x) in *. set (m := round_half_even (x / pow2 e)) in *.
  assert (He : (e <= 970)%Z) by (unfold e, ulp_exp, emin; lia).
  destruct (Z.eqb_spec m (2 ^ 53)) as [Em|Em].
  - destruct (Z.ltb_spec emax (e + 1)); [unfold emax in *; lia|].
    exists (2 ^ 52)%Z, (e + 1)%Z. split; [done|].
    rewrite Em, pow2_succ.
    change (inject_Z (2 ^ 53)) with (2 * inject_Z (2 ^ 52)). ring.
  - destruct (Z.ltb_spec emax e); [unfold emax in *; lia|].
    by exists m, e.
Qed.

(** Rounding to a Number keeps the order. *)
Lemma round_mag_mono x y :
  0 <= x -> x <= y -> y < pow2 1023 ->
  mag (round_mag false x) <= mag (round_mag false y).
Proof.
  intros H0 Hxy Hy.
  destruct (Qlt_le_dec 0 x) as [Hx|Hx0].
  2:{ rewrite (round_mag_zero false x) by lra. cbn [mag].
      change (inject_Z 0) with 0.
      destruct (round_mag_error false y) as (m & e & -> & Hm & _); [lra|done|].
      rewrite Qmult_0_l. by apply mag_nonneg. }
  assert (Hy0 : 0 < y) by lra.
  destruct (round_mag_value x Hx) as (mx & ex & -> & Ex); [lra|].
  destruct (round_mag_value y Hy0 Hy) as (my & ey & -> & Ey).
  cbn [mag]. rewrite Ex, Ey. clear Ex Ey mx ex my ey.
  destruct (round_mag_scaled x Hx) as (_ & _ & [Rx0 Rx1] & _).
  destruct (round_mag_scaled y Hy0) as (_ & _ & [Ry0 Ry1] & _).
  cbv zeta in *.
  pose proof (ilog2_mono x y Hx Hxy) as Hl.
  pose proof (pow2_pos (ulp_exp x)) as Hpx.
  pose proof (pow2_pos (ulp_exp y)) as Hpy.
  destruct (Z.eq_dec (ulp_exp x) (ulp_exp y)) as [E|NE].
  - rewrite E in *.
    assert (Hq : x / pow2 (ulp_exp y) <= y / pow2 (ulp_exp y)).
    { apply Qmult_le_compat_r; [done|]. apply Qlt_le_weak, Qinv_lt_0_compat.
      done. }
    pose proof (round_half_even_mono _ _ Hq) as Hr.
    apply inject_Z_le in Hr. nra.
  - assert (He : (ulp_exp x + 1 <= ulp_exp y)%Z)
      by (unfold ulp_exp in *; lia).
    assert (Eey : ulp_exp y = (ilog2 y - 52)%Z)
      by (unfold ulp_exp, emin in *; lia).
    destruct (ilog2_spec y Hy0) as [L1 _].
    assert (H52 : inject_Z (2 ^ 52) <= y / pow2 (ulp_exp y)).
    { apply Qle_shift_div_l; [done|].
      rewrite <- pow2_inject by lia. rewrite <- pow2_plus.
      rewrite Eey. by replace (52 + (ilog2 y - 52))%Z with (ilog2 y) by lia. }
    pose proof (round_half_even_mono _ _ H52) as Hr.
    rewrite (round_half_even_Z _ (2 ^ 52)) in Hr by reflexivity.
    apply inject_Z_le in Hr, Rx1.
    assert (Hp : 2 * pow2 (ulp_exp x) <= pow2 (ulp_exp y)).
    { rewrite <- pow2_succ. by apply pow2_le. }
    change (inject_Z (2 ^ 53)) with (2 * inject_Z (2 ^ 52)) in Rx1.
    assert (H52p : 0 < inject_Z (2 ^ 52)) by done.
    set (a := inject_Z (round_half_even (x / pow2 (ulp_exp x)))) in *.
    set (b := inject_Z (round_half_even (y / pow2 (ulp_exp y)))) in *.
    set (c := inject_Z (2 ^ 52)) in *.
    set (u := pow2 (ulp_exp x)) in *. set (v := pow2 (ulp_exp y)) in *.
    clearbody a b c u v.
    apply Qle_trans with (2 * c * u); [nra|].
    apply Qle_trans with (c * v); nra.
Qed.

Lemma div_tick m e sd :
  div (Finite false m e) (tickSize sd)
  = round_mag false (mag (Finite false m e) / mag (tickSize sd))
  /\ 1 # 1001 <= mag (tickSize sd).
Proof.
  destruct (tick_cases sd) as [[-> _]|[[-> _]|[[-> _]|[-> _]]]];
    (split; [reflexivity|by vm_compute]).
Qed.

(** The limit prices of two adjusted prices come in the order of the
    adjusted prices. *)
Lemma roundToTick_mono m1 e1 m2 e2 sd :
  (0 <= m1)%Z -> (0 <= m2)%Z ->
  mag (Finite false m1 e1) <= mag (Finite false m2 e2) ->
  mag (Finite false m2 e2) <= 1100000000000 ->
  exists K1 K2,
    (0 <= K1 <= K2)%Z
    /\ roundToTick (Finite false m1 e1) sd
       = fixed_string K1 (fractionDigits sd)
    /\ roundToTick (Finite false m2 e2) sd
       = fixed_string K2 (fractionDigits sd).
Proof.
  intros Hm1 Hm2 H12 Hhi.
  destruct (roundToTick_spec m1 e1 sd Hm1) as
    (mq1 & eq1 & Eq1 & Hmq1 & _ & _ & _ & _ & R1); [lra|].
  destruct (roundToTick_spec m2 e2 sd Hm2 Hhi) as
    (mq2 & eq2 & Eq2 & Hmq2 & _ & _ & _ & _ & R2).
  eexists _, _. split; [|split; [exact R1|exact R2]].
  destruct (div_tick m1 e1 sd) as [D1 Ht]. destruct (div_tick m2 e2 sd) as [D2 _].
  pose proof (mag_nonneg false m1 e1 Hm1) as H1.
  pose proof (mag_nonneg false mq1 eq1 Hmq1) as Hq1.
  set (x1 := mag (Finite false m1 e1)) in *.
  set (x2 := mag (Finite false m2 e2)) in *.
  set (t := mag (tickSize sd)) in *.
  assert (Ht0 : 0 < t) by lra.
  assert (Ha : x1 / t <= x2 / t).
  { apply Qmult_le_compat_r; [done|]. by apply Qlt_le_weak, Qinv_lt_0_compat. }
  assert (Ha0 : 0 <= x1 / t).
  { apply Qle_shift_div_l; [done|]. lra. }
  assert (Ha2 : x2 / t < pow2 1023).
  { apply Qlt_shift_div_r; [done|]. pose proof pow2_1023_big.
    assert (1100000000000 * 1001 < 10 ^ 300) by (by vm_compute).
    assert (10 ^ 300 * (1 # 1001) <= pow2 1023 * t) by nra.
    nra. }
  pose proof (round_mag_mono _ _ Ha0 Ha Ha2) as Hq.
  rewrite <- D1, <- D2, Eq1, Eq2 in Hq.
  split; [apply Qfloor_nonneg; lra|].
  apply Qfloor_resp_le. lra.
Qed.

Lemma limitPrice_order m1 e1 side1 m2 e2 side2 sd :
  (0 <= m1)%Z -> (0 <= m2)%Z ->
  mag (Finite false m1 e1) * mag (priceAdjustment side1)
  <= mag (Finite false m2 e2) * mag (priceAdjustment side2) ->
  mag (Finite false m1 e1) <= 1000000000000 ->
  mag (Finite false m2 e2) <= 1000000000000 ->
  exists v1 v2,
    decimal_value (limitPrice (Finite false m1 e1) side1 sd) = Some v1
    /\ decimal_value (limitPrice (Finite false m2 e2) side2 sd) = Some v2
    /\ v1 <= v2.
Proof.
  intros Hm1 Hm2 H12 Hhi1 Hhi2. unfold limitPrice.
  assert (Hmul : forall m e side,
            mul (Finite false m e) (priceAdjustment side)
            = round_mag false
                (mag (Finite false m e) * mag (priceAdjustment side))).
  { intros m e []; reflexivity. }
  destruct (adjusted_price m1 e1 side1 Hm1 Hhi1)
    as (mx1 & ex1 & E1 & Hmx1 & _ & _ & Hb1).
  destruct (adjusted_price m2 e2 side2 Hm2 Hhi2)
    as (mx2 & ex2 & E2 & Hmx2 & _ & _ & Hb2).
  assert (Hx : mag (Finite false mx1 ex1) <= mag (Finite false mx2 ex2)).
  { rewrite <- E1, <- E2, !Hmul. apply round_mag_mono; [|done|].
    - pose proof (mag_nonneg false m1 e1 Hm1).
      assert (0 <= mag (priceAdjustment side1)) by (by destruct side1).
      nra.
    - pose proof pow2_1023_big.
      assert (mag (priceAdjustment side2) <= 1003 # 1000)
        by (by destruct side2).
      assert (0 <= mag (priceAdjustment side2)) by (by destruct side2).
      pose proof (mag_nonneg false m2 e2 Hm2).
      assert (1003000000000 < 10 ^ 300) by (by vm_compute).
      set (p := mag (Finite false m2 e2)) in *.
      set (c := mag (priceAdjustment side2)) in *.
      clearbody p c. nra. }
  rewrite E1, E2.
  destruct (roundToTick_mono mx1 ex1 mx2 ex2 sd Hmx1 Hmx2 Hx)
    as (K1 & K2 & [HK1 HK12] & -> & ->); [lra|].
  eexists _, _.
  split; [exact (decimal_value_fixed false K1 _ HK1)|].
  split; [apply (decimal_value_fixed false K2); lia|].
  apply Qmult_le_compat_r; [by apply inject_Z_le|].
  apply Qlt_le_weak, Qpower_0_lt. done.
Qed.

(** X13: the limit price is monotone in the price: of two positive
    prices of at most [10^12], the larger one never has the smaller
    limit price, for the same side and decimals. *)
Theorem limitPrice_monotone price1 price2 side sd :
  positive price1 -> positive price2 ->
  mag price1 <= mag price2 -> mag price2 <= 1000000000000 ->
  exists v1 v2,
    decimal_value (limitPrice price1 side sd) = Some v1
    /\ decimal_value (limitPrice price2 side sd) = Some v2
    /\ v1 <= v2.
Proof.
  intros Hp1 Hp2 H12 Hhi.
  destruct price1 as [| |[|] m1 e1]; try done.
  destruct price2 as [| |[|] m2 e2]; try done.
  cbn [positive] in Hp1, Hp2.
  apply limitPrice_order; [lia|lia| |lra|done].
  apply Qmult_le_compat_r; [done|]. by destruct side.
Qed.

(** X14: for every positive price of at most [10^12] the sell-side
    limit price is at most the buy-side limit price. *)
Theorem sell_limit_below_buy_limit price sd :
  positive price -> mag price <= 1000000000000 ->
  exists sell buy,
    decimal_value (limitPrice price Sell sd) = Some sell
    /\ decimal_value (limitPrice price Buy sd) = Some buy
    /\ sell <= buy.
Proof.
  intros Hp Hhi. destruct price as [| |[|] m e]; try done.
  cbn [positive] in Hp.
  apply limitPrice_order; [lia|lia| |done|done].
  pose proof (mag_nonneg false m e ltac:(lia)) as H0.
  cbn [priceAdjustment]. rewrite mag_lit_1_002, mag_lit_0_998.
  set (p := mag (Finite false m e)) in *. clearbody p. lra.
Qed.

Lemma limitPrice_monotone_witness :
  exists v1 v2,
    decimal_value (limitPrice price_1_4 Buy 2) = Some v1
    /\ decimal_value (limitPrice price_1_6 Buy 2) = Some v2
    /\ v1 <= v2.
Proof.
  apply (limitPrice_monotone price_1_4 price_1_6 Buy 2); by vm_compute.
Defined.

Lemma sell_limit_below_buy_limit_witness :
  exists sell buy,
    decimal_value (limitPrice price_1_4 Sell 5) = Some sell
    /\ decimal_value (limitPrice price_1_4 Buy 5) = Some buy
    /\ sell <= buy.
Proof.
  apply (sell_limit_below_buy_limit price_1_4 5); by vm_compute.
Defined.

End MonotoneFacts.

(** ** The console lines of the keys, and quoted values *)

Module TextFacts.

Import Regex Text Console DecimalFacts.
Local Open Scope string_scope.

Lemma string_length_app (s t : string) :
  String.length (s ++ t) = (String.length s + String.length t)%nat.
Proof.
  induction s as [|c s IH]; [done|].
  rewrite string_app_cons. cbn [String.length]. by rewrite IH.
Qed.

Lemma prefix_whole (s head rest : string) :
  s = head ++ rest -> String.length head = String.length s -> s = head.
Proof.
  intros E L. pose proof (f_equal String.length E) as H.
  rewrite string_length_app in H.
  destruct rest as [|c rest]; [by rewrite string_app_nil in E|].
  cbn [String.length] in H. lia.
Qed.

Lemma substring_head n (s : string) :
  exists rest,
    s = String.substring 0 n s ++ rest
    /\ String.length (String.substring 0 n s) = Nat.min n (String.length s).
Proof.
  revert n. induction s as [|c s IH]; intros [|n].
  - by exists "".
  - by exists "".
  - by exists (String c s).
  - destruct (IH n) as (rest & E & L). exists rest.
    cbn [String.substring String.length]. rewrite string_app_cons.
    split; [by rewrite <- E|]. cbn [Nat.min]. by rewrite L.
Qed.

Lemma substring_all (s : string) :
  String.substring 0 (String.length s) s = s.
Proof. induction s as [|c s IH]; [done|]. cbn. by rewrite IH. Qed.

Lemma substring_tail n (s : string) :
  (n <= String.length s)%nat ->
  exists front,
    s = front ++ String.substring n (String.length s - n) s
    /\ String.length front = n.
Proof.
  revert s. induction n as [|n IH]; intros s Hn.
  - exists "". rewrite Nat.sub_0_r, substring_all. done.
  - destruct s as [|c s]; [cbn in Hn; lia|].
    destruct (IH s) as (front & E & L); [cbn in Hn; lia|].
    exists (String c front). cbn [String.substring String.length Nat.sub].
    rewrite string_app_cons. split; [by rewrite <- E|]. by rewrite L.
Qed.

Lemma substring_from_start (s : string) (n : Z) :
  (0 <= n)%Z ->
  Text.substring s 0 (Some n)
  = String.substring 0 (Nat.min (Z.to_nat n) (String.length s)) s.
Proof.
  intros Hn. unfold Text.substring. cbv zeta.
  f_equal; [lia|lia].
Qed.

Lemma substring_to_end (s : string) (k : Z) :
  (0 <= k)%Z ->
  Text.substring s (Z.of_nat (String.length s) - k) None
  = String.substring
      (String.length s - Nat.min (Z.to_nat k) (String.length s))
      (Nat.min (Z.to_nat k) (String.length s)) s.
Proof. intros Hk. unfold Text.substring. cbv zeta. f_equal; lia. Qed.

(** X20: the console line of the private key shows the first ten
    and the last four characters of the key around three dots, and
    fewer only when the key is shorter: a key of at most ten
    characters is shown whole. *)
Theorem private_key_line_shows (PRIVATE_KEY : string) :
  exists head rest front tail,
    PRIVATE_KEY = head ++ rest /\ PRIVATE_KEY = front ++ tail
    /\ String.length head = Nat.min 10 (String.length PRIVATE_KEY)
    /\ String.length tail = Nat.min 4 (String.length PRIVATE_KEY)
    /\ private_key_line PRIVATE_KEY
       = "   Private Key: " ++ head ++ "..." ++ tail
    /\ ((String.length PRIVATE_KEY <= 10)%nat -> head = PRIVATE_KEY).
Proof.
  unfold private_key_line.
  rewrite (substring_from_start PRIVATE_KEY 10) by lia.
  rewrite (substring_to_end PRIVATE_KEY 4) by lia.
  change (Z.to_nat 4) with 4%nat. change (Z.to_nat 10) with 10%nat.
  set (len := String.length PRIVATE_KEY).
  destruct (substring_head (Nat.min 10 len) PRIVATE_KEY)
    as (rest & E1 & L1).
  destruct (substring_tail (len - Nat.min 4 len) PRIVATE_KEY)
    as (front & E2 & L2); [unfold len; lia|].
  fold len in E2, L1.
  replace (len - (len - Nat.min 4 len))%nat with (Nat.min 4 len) in E2 by lia.
  eexists _, rest, front, _. split; [exact E1|]. split; [exact E2|].
  split; [rewrite L1; lia|]. split; [|split; [done|]].
  - apply (f_equal String.length) in E2.
    rewrite string_length_app in E2. fold len in E2. lia.
  - intros Hshort. symmetry. apply (prefix_whole _ _ rest E1).
    rewrite L1. fold len. lia.
Qed.

(** X26: the banner of the server shows the first eight characters
    of the API key, and the whole key when it has at most eight. *)
Theorem api_key_line_shows (OPENSERV_API_KEY : string) :
  exists head rest,
    OPENSERV_API_KEY = head ++ rest
    /\ String.length head = Nat.min 8 (String.length OPENSERV_API_KEY)
    /\ api_key_line OPENSERV_API_KEY
       = "   OPENSERV_API_KEY: " ++ head ++ "..."
    /\ ((String.length OPENSERV_API_KEY <= 8)%nat ->
        head = OPENSERV_API_KEY).
Proof.
  unfold api_key_line.
  rewrite (substring_from_start OPENSERV_API_KEY 8) by lia.
  destruct (substring_head
              (Nat.min (Z.to_nat 8) (String.length OPENSERV_API_KEY))
              OPENSERV_API_KEY) as (rest & E1 & L1).
  eexists _, rest. split; [exact E1|]. split; [rewrite L1; lia|].
  split; [done|].
  intros Hshort. symmetry. apply (prefix_whole _ _ rest E1).
  rewrite L1. lia.
Qed.

Lemma ends_with_quote_app t : ends_with_quote (t ++ Trade.dq) = true.
Proof.
  induction t as [|c t IH]; [done|].
  rewrite string_app_cons. cbn [ends_with_quote].
  by destruct (t ++ Trade.dq) eqn:E; [destruct t|].
Qed.

Lemma drop_last_app t : drop_last (t ++ Trade.dq) = t.
Proof.
  induction t as [|c t IH]; [done|].
  rewrite string_app_cons. cbn [drop_last]. rewrite IH.
  by destruct (t ++ Trade.dq) eqn:E; [destruct t|].
Qed.

(** X19: a value the store sends between two quotes is read as the
    text between them, whatever the text (quotes inside it, or at its
    ends, are kept). *)
Theorem strip_quotes_of_quoted t :
  strip_quotes (Trade.dq ++ t ++ Trade.dq) = t.
Proof.
  change (Trade.dq ++ t ++ Trade.dq) with (String quote (t ++ Trade.dq)).
  unfold strip_quotes. cbn [replace_scan].
  change (Ascii.eqb quote quote) with true. cbn [andb orb].
  rewrite RegexFacts.replace_scan_inner. unfold drop_trailing_quote.
  by rewrite ends_with_quote_app, drop_last_app.
Qed.

End TextFacts.

(** ** The test capability *)

Module TestFacts.

Import Js Json Text TestCapability.
Local Open Scope string_scope.

Lemma get_defined v k : exists r, get (Some v) k = Ok r \/ v = Null.
Proof.
  destruct v; cbn [get]; try (by eexists; left); try (by exists None; right).
  - destruct (String.eqb k "length"); by eexists; left.
  - destruct (String.eqb k "length"); by eexists; left.
Qed.

Lemma get_truthy v k : truthy v = true -> exists r, get v k = Ok r.
Proof.
  destruct v as [v|]; [|done]. intros Ht.
  destruct (get_defined v k) as (r & [E| ->]); [by exists r|done].
Qed.

Lemma get_optional_total v k : exists r, get_optional v k = Ok r.
Proof.
  destruct v as [v|]; [|by exists None].
  destruct (get_defined v k) as (r & [E| ->]); [|by exists None].
  exists r. by destruct v.
Qed.

Lemma action_context_total action :
  truthy action = true ->
  exists type taskId workspaceId,
    action_context action
    = Ok (object [("type", type); ("taskId", taskId);
                  ("workspaceId", workspaceId)]).
Proof.
  intros Ht. unfold action_context.
  destruct (get_truthy action "type" Ht) as [type ->].
  destruct (get_truthy action "task" Ht) as [task ->].
  destruct (get_optional_total task "id") as [taskId ->].
  destruct (get_truthy action "workspace" Ht) as [workspace ->].
  destruct (get_optional_total workspace "id") as [workspaceId ->].
  by exists type, taskId, workspaceId.
Qed.

(** X21: the test capability never throws: for every [args] and
    [action] it returns the success object with the timestamp and the
    arguments it received, and it prints the action context, an object
    of [type], [taskId] and [workspaceId] only, exactly when [action]
    is truthy. *)
Theorem test_run_never_throws timestamp args action :
  exists context,
    run timestamp args action
    = (Ok (Object [("success", Bool true);
                   ("message", Str "Test capability executed successfully");
                   ("timestamp", Str timestamp);
                   ("receivedArgs", args)]),
       (opening args ++ context ++ closing)%list)
    /\ (truthy action = false -> context = [])
    /\ (truthy action = true ->
        exists type taskId workspaceId,
          context
          = [Line (nl ++ "📦 ACTION CONTEXT:");
             JsonLine (object [("type", type); ("taskId", taskId);
                               ("workspaceId", workspaceId)])]).
Proof.
  unfold run. destruct (truthy action) eqn:Ht.
  - destruct (action_context_total action Ht) as (t & i & ws & E).
    rewrite E. eexists. split; [reflexivity|]. split; [done|].
    intros _. by exists t, i, ws.
  - exists []. split; [done|]. by split.
Qed.

End TestFacts.

(** ** The server *)

Module ServerFacts.

Import Js Text Capabilities Server ServerSpec.
Local Open Scope string_scope.

Lemma nonempty_or_else (a : option string) :
  Regex.is_empty (or_else a "") = negb (nonempty a).
Proof. unfold or_else. destruct a as [[|c s]|]; reflexivity. Qed.

Ltac answers :=
  repeat match goal with
    | |- context [new_Agent ?w ?h] => destruct (new_Agent w h)
    | |- context [addCapability ?w ?h] => destruct (addCapability w h)
    | |- context [start ?w ?h] => destruct (start w h)
    | |- context [on_SIGINT ?w ?h] => destruct (on_SIGINT w h)
    | |- context [stop ?w ?h] => destruct (stop w h)
    end.

Ltac script_steps :=
  unfold script, main, capabilities, getAllCapabilities, on_sigint,
    try_finally, try_catch, for_each, mbind, mret, P_bind, P_ret, bind, call,
    emit, exit, ret;
  cbv zeta.

(** [Start] is not an event of a history that is written out. *)
Ltac no_start :=
  let H := fresh "H" in
  intros H; exfalso;
  repeat (apply elem_of_cons in H as [H|H]; [discriminate|]);
  by apply elem_of_nil in H.

(** X22: without [OPENSERV_API_KEY] (absent, or empty) the server
    prints the error and exits with code 1 before anything else; an
    agent is only ever made with the system prompt and the non-empty
    key of the environment. *)
Theorem agent_needs_key env w :
  (nonempty (OPENSERV_API_KEY env) = false ->
   script env w []
   = (Exited 1,
      [Exit 1;
       ConsoleError "❌ Please set OPENSERV_API_KEY in your environment"]))
  /\ Forall (agent_keyed env) (snd (script env w [])).
Proof.
  split.
  - intros H. unfold script. cbv zeta.
    rewrite nonempty_or_else, H. reflexivity.
  - script_steps. rewrite nonempty_or_else.
    destruct (OPENSERV_API_KEY env) as [[|c key]|] eqn:E;
      cbn [nonempty Regex.is_empty negb or_else default id];
      try (by repeat constructor).
    answers; cbn [snd]; repeat constructor; done.
Qed.

(** X24: the only exit code of the start-up is 1, and once
    [agent.start()] has been called no exception leaves the script: a
    failure of [main] ends the process with code 1. *)
Theorem script_exits_with_1 env w :
  (forall code, fst (script env w []) = Exited code -> code = 1%Z)
  /\ (Start ∈ snd (script env w []) ->
      forall e, fst (script env w []) <> Throw e).
Proof.
  script_steps. rewrite nonempty_or_else.
  destruct (nonempty (OPENSERV_API_KEY env)); cbn [negb].
  - answers; cbn [fst snd]; split; try (by intros code [= <-]);
      try (by intros code [=]); try (by intros _ ? [=]).
    all: no_start.
  - split; [by intros code [= <-]|by intros _ e [=]].
Qed.

(** X23: when the server calls [agent.start()], the capabilities
    added to the agent are the ones of [getAllCapabilities], each once,
    in that order. *)
Theorem start_after_registration env w :
  Start ∈ snd (script env w []) ->
  registered (snd (script env w [])) = getAllCapabilities.
Proof.
  script_steps. rewrite nonempty_or_else.
  destruct (nonempty (OPENSERV_API_KEY env)); cbn [negb].
  - answers; cbn [snd]; try (by intros _; vm_compute).
    all: no_start.
  - cbn [snd]. no_start.
Qed.

(** X25: the handler of [SIGINT] calls [agent.stop()] once and then
    exits with code 0, whether the agent stops or throws; what differs
    is the line reported. *)
Theorem sigint_always_exits_0 w h :
  exists report,
    on_sigint w h
    = (Exited 0,
       Exit 0 :: report :: Stop
         :: ConsoleLog (nl ++ "🛑 Shutting down...") :: h)
    /\ (stop w (Stop :: ConsoleLog (nl ++ "🛑 Shutting down...") :: h) = Ok tt
        -> report = ConsoleLog "✅ Agent stopped")
    /\ (forall e,
          stop w (Stop :: ConsoleLog (nl ++ "🛑 Shutting down...") :: h)
          = Raise e ->
          report = ConsoleErrorWith "❌ Error while stopping agent:" e).
Proof.
  script_steps.
  destruct (stop w _) as [[]|e]; eexists; split; try reflexivity;
    split; try done.
  - by intros e' [= ->].
Qed.

Lemma start_after_registration_witness :
  registered (snd (script Examples.server_env Examples.server_world []))
  = getAllCapabilities.
Proof.
  apply (start_after_registration Examples.server_env Examples.server_world).
  vm_compute. repeat constructor.
Defined.

End ServerFacts.
